(** * mongoL: the update-document builder and the repository update calls

    A shallow embedding of [mongo/utils.go] ([BuildUpdateSet], [contains]),
    of the document types of [mongo/document.go] ([BaseDocument], [User]) and
    of [Repository.UpdateOne] / [Repository.UpdateMany] of
    [mongo/operations.go].

    Go code runs here in a small state-and-panic monad over a store that holds
    the targets of pointers and the contents of [bson.M] maps, so that
    aliasing, in-place mutation and run-time panics of the source are visible
    in the model. The library calls the source makes are modelled after the
    libraries: [reflect.Value.IsZero] as from Go 1.22, [strings.ToLower] with
    its ASCII path computed and its Unicode path a variable of the
    development. *)

From stdpp Require Import gmap strings list fin_maps.
From Stdlib Require Import ZArith Ascii String.

Local Open Scope string_scope.
Local Open Scope Z_scope.
#[local] Set Warnings "-register-all".

(** ** Go values as reflection sees them *)

(** Addresses of heap objects (pointer targets and map objects). *)
Definition loc := positive.

(** [reflect.Kind]. The sized variants (Int8 .. Int64, Uint8 .. Uintptr,
    Float32/64, Complex64/128) are merged: the source only ever compares a
    kind with [Ptr] and [Struct]. *)
Inductive Kind :=
| KInvalid | KBool | KInt | KUint | KFloat | KComplex | KArray | KChan
| KFunc | KInterface | KMap | KPtr | KSlice | KString | KStruct
| KUnsafePointer.

Global Instance Kind_eq_dec : EqDecision Kind.
Proof. solve_decision. Defined.

(** [reflect.StructTag] in parsed form: the conventional
    [key:"value" key:"value"] list, in the order it is written. *)
Definition StructTag := list (string * string).

(** [reflect.StructField]: the descriptor [setType.Field(i)] yields. *)
Record StructField := mkStructField {
  Name : string;
  PkgPath : string;      (* empty exactly for an exported field *)
  Tag : StructTag;
  Anonymous : bool       (* an embedded field *)
}.

(** A Go value of a concrete type. Reference kinds hold [None] for nil.
    A struct carries its type's field descriptors next to the field values,
    so [reflect.Type] and [reflect.Value] of the same struct are read from
    one list. A float is kept as the IEEE bits of the [float64] that
    [Value.Float] returns for it, a complex number as those of its two
    parts. *)
Inductive value :=
| VBool (b : bool)
| VInt (n : Z)
| VUint (n : Z)
| VFloat (bits : Z)
| VComplex (re_bits im_bits : Z)
| VString (s : string)
| VArray (elems : list value)
| VSlice (elems : option (list value))
| VStruct (fields : list (StructField * value))
| VPtr (target : option loc)
| VM (ref : option loc)            (* a bson.M (primitive.M) *)
| VMap (ref : option loc)          (* a map of any other type *)
| VChan (ref : option loc)
| VFunc (ref : option loc)
| VUnsafePointer (addr : Z)
| VIface (held : option value).    (* storage of interface type *)

(** [interface{}]: nil, or a dynamic value. *)
Abbreviation any := (option value).

(** Heap objects: the target of a pointer, or the contents of a [bson.M]
    (a [map[string]interface{}]). *)
Inductive cell :=
| CVal (x : value)
| CM (m : gmap string any).

Abbreviation store := (gmap loc cell).

(** A variable of static type [bson.M]: nil or a reference to a map object. *)
Abbreviation bsonM := (option loc).

(** A slice of Go seen by value: nil, or its elements. *)
Abbreviation slice A := (option (list A)).

(** [bson.D]: a slice of [bson.E{Key, Value}]. *)
Abbreviation bsonD := (slice (string * any)).

(** ** The monad: a store threaded through, or a panic *)

Inductive result (A : Type) :=
| Ok (a : A) (st : store)
| Panic (msg : string).
Arguments Ok {A} a st.
Arguments Panic {A} msg.

Definition Go (A : Type) : Type := store -> result A.

Definition ret {A} (a : A) : Go A := fun st => Ok a st.
Definition panic {A} (msg : string) : Go A := fun _ => Panic msg.
Definition bind {A B} (c : Go A) (k : A -> Go B) : Go B :=
  fun st => match c st with
            | Ok a st' => k a st'
            | Panic msg => Panic msg
            end.

Notation "x <- c ;; k" := (bind c (fun x => k))
  (at level 100, c at next level, right associativity).
Notation "c ;;; k" := (bind c (fun _ => k))
  (at level 100, right associativity).

(** ** Built-in map operations on [bson.M] *)

(** [bson.M{}] *)
Definition new_M : Go bsonM :=
  fun st => let l := fresh (dom st) in Ok (Some l) (<[l := CM ∅]> st).

(** [m[k]]: nil for a missing key, and for every key of a nil map. *)
Definition map_index (m : bsonM) (k : string) : Go any :=
  fun st => match m with
            | None => Ok None st
            | Some l => match st !! l with
                        | Some (CM mm) => Ok (mjoin (mm !! k)) st
                        | _ => Panic "invalid memory address"
                        end
            end.

(** [m[k] = v] *)
Definition map_assign (m : bsonM) (k : string) (v : any) : Go unit :=
  fun st => match m with
            | None => Panic "assignment to entry in nil map"
            | Some l => match st !! l with
                        | Some (CM mm) => Ok tt (<[l := CM (<[k := v]> mm)]> st)
                        | _ => Panic "invalid memory address"
                        end
            end.

(** [len(m)] *)
Definition map_len (m : bsonM) : Go nat :=
  fun st => match m with
            | None => Ok 0%nat st
            | Some l => match st !! l with
                        | Some (CM mm) => Ok (size mm) st
                        | _ => Panic "invalid memory address"
                        end
            end.

(** [x.(bson.M)] *)
Definition assert_M (x : any) : Go bsonM :=
  match x with
  | Some (VM r) => ret r
  | _ => panic "interface conversion: interface {} is not primitive.M"
  end.

(** The bounds of [int64] as numerals, for [lia]. *)
Ltac int64_bounds :=
  change (2 ^ 63) with 9223372036854775808 in *;
  change (2 ^ 64) with 18446744073709551616 in *.

(** A stand-in for the Unicode path of [strings.ToLower] in examples whose
    names are ASCII, where that path is not taken. *)
Definition ascii_names : string -> string := fun s => s.

Section Program.

(** [strings.Map(unicode.ToLower, s)]: what [strings.ToLower] returns for a
    string that has a byte outside ASCII. The case tables are the
    library's; every result below holds whatever they are. *)
Variable unicode_ToLower : string -> string.

(** ** Package strings *)

Definition lower_ascii (c : ascii) : ascii :=
  let n := nat_of_ascii c in
  if ((65 <=? n)%nat && (n <=? 90)%nat)%bool then ascii_of_nat (n + 32) else c.

(** Whether every byte is below [utf8.RuneSelf]. *)
Fixpoint isASCII (s : string) : bool :=
  match s with
  | EmptyString => true
  | String c r => (nat_of_ascii c <? 128)%nat && isASCII r
  end.

(** The ASCII letters [A] to [Z] lowered byte by byte. *)
Fixpoint lower_bytes (s : string) : string :=
  match s with
  | EmptyString => EmptyString
  | String c r => String (lower_ascii c) (lower_bytes r)
  end.

(** [strings.ToLower]: byte by byte for an ASCII string, through the
    Unicode tables otherwise. *)
Definition ToLower (s : string) : string :=
  if isASCII s then lower_bytes s else unicode_ToLower s.

(** [strings.Split(s, sep)] for a one-byte separator: the pieces between the
    separators, always at least one. *)
Fixpoint Split (s : string) (sep : ascii) : list string :=
  match s with
  | EmptyString => [EmptyString]
  | String c r =>
      if Ascii.eqb c sep then EmptyString :: Split r sep
      else match Split r sep with
           | p :: ps => String c p :: ps
           | [] => [String c EmptyString]
           end
  end.

(** ** Package reflect *)

(** [StructTag.Get]: the value of the first pair with the key, or the empty
    string. *)
Fixpoint Get (tag : StructTag) (key : string) : string :=
  match tag with
  | [] => EmptyString
  | (k, v) :: rest => if String.eqb k key then v else Get rest key
  end.

(** [reflect.Value]: the zero Value has no payload; [flagRO] marks a value
    reached through an unexported field. *)
Record Value := mkValue {
  payload : any;
  flagRO : bool
}.

Definition ValueOf (data : any) : Value := mkValue data false.

Definition kind_of (x : value) : Kind :=
  match x with
  | VBool _ => KBool
  | VInt _ => KInt
  | VUint _ => KUint
  | VFloat _ => KFloat
  | VComplex _ _ => KComplex
  | VString _ => KString
  | VArray _ => KArray
  | VSlice _ => KSlice
  | VStruct _ => KStruct
  | VPtr _ => KPtr
  | VM _ | VMap _ => KMap
  | VChan _ => KChan
  | VFunc _ => KFunc
  | VUnsafePointer _ => KUnsafePointer
  | VIface _ => KInterface
  end.

Definition Kind_of (v : Value) : Kind :=
  match payload v with
  | None => KInvalid
  | Some x => kind_of x
  end.

(** [Value.Elem]: the target of a pointer or the content of an interface; the
    zero Value for a nil one; a panic on every other kind. *)
Definition Elem (v : Value) : Go Value :=
  match payload v with
  | Some (VPtr None) => ret (mkValue None false)
  | Some (VPtr (Some l)) =>
      fun st => match st !! l with
                | Some (CVal x) => Ok (mkValue (Some x) (flagRO v)) st
                | _ => Panic "invalid memory address or nil pointer dereference"
                end
  | Some (VIface None) => ret (mkValue None false)
  | Some (VIface (Some x)) => ret (mkValue (Some x) (flagRO v))
  | _ => panic "reflect: call of reflect.Value.Elem on non-pointer Value"
  end.

Definition NumField (v : Value) : Go nat :=
  match payload v with
  | Some (VStruct fs) => ret (List.length fs)
  | _ => panic "reflect: call of reflect.Value.NumField on non-struct Value"
  end.

Definition IsExported (f : StructField) : bool :=
  String.eqb (PkgPath f) EmptyString.

(** [Value.Field(i)]: read-only when the struct was, or the field is
    unexported. *)
Definition Field (v : Value) (i : nat) : Go Value :=
  match payload v with
  | Some (VStruct fs) =>
      match fs !! i with
      | Some (f, x) => ret (mkValue (Some x) (flagRO v || negb (IsExported f)))
      | None => panic "reflect: Field index out of range"
      end
  | _ => panic "reflect: call of reflect.Value.Field on non-struct Value"
  end.

(** [Type.Field(i)], read off the same struct. *)
Definition Type_Field (v : Value) (i : nat) : Go StructField :=
  match payload v with
  | Some (VStruct fs) =>
      match fs !! i with
      | Some (f, _) => ret f
      | None => panic "reflect: Field index out of bounds"
      end
  | _ => panic "reflect: Field of non-struct type"
  end.

Definition CanInterface (v : Value) : Go bool :=
  match payload v with
  | None => panic "reflect: call of reflect.Value.CanInterface on zero Value"
  | Some _ => ret (negb (flagRO v))
  end.

(** [Value.Interface]: the value boxed as [interface{}]; for storage of
    interface type, the interface it holds. *)
Definition Interface (v : Value) : Go any :=
  match payload v with
  | None => panic "reflect: call of reflect.Value.Interface on zero Value"
  | Some x =>
      if flagRO v
      then panic "reflect.Value.Interface: cannot return value obtained from unexported field or method"
      else ret (match x with VIface h => h | _ => Some x end)
  end.

(** Whether a float, given by its bits as a [float64], compares equal to
    zero: [+0.0] and [-0.0] do, nothing else does. *)
Definition float_is_zero (bits : Z) : bool :=
  Z.eqb bits 0 || Z.eqb bits 9223372036854775808.

(** The zero test of [Value.IsZero] on a valid value, as from Go 1.22, where
    it agrees with comparing to the zero value by [==]: numbers by value
    (so a negative zero is zero), arrays and structs field by field
    (unexported fields included, blank fields [_] passed over), reference
    kinds by nil-ness. *)
Fixpoint is_zero (x : value) : bool :=
  match x with
  | VBool b => negb b
  | VInt n | VUint n | VUnsafePointer n => Z.eqb n 0
  | VFloat bits => float_is_zero bits
  | VComplex re im => float_is_zero re && float_is_zero im
  | VString s => String.eqb s EmptyString
  | VArray elems => forallb is_zero elems
  | VStruct fs => forallb (fun fx => is_zero (snd fx) || String.eqb (Name (fst fx)) "_") fs
  | VSlice None => true
  | VSlice (Some _) => false
  | VPtr r | VM r | VMap r | VChan r | VFunc r =>
      match r with None => true | Some _ => false end
  | VIface None => true
  | VIface (Some _) => false
  end.

Definition IsZero (v : Value) : Go bool :=
  match payload v with
  | None => panic "reflect: call of reflect.Value.IsZero on zero Value"
  | Some x => ret (is_zero x)
  end.

(** ** mongo/utils.go *)

(** [contains]: whether the slice holds the item. *)
Fixpoint contains (slice : list string) (item : string) : bool :=
  match slice with
  | [] => false
  | s :: rest => if String.eqb s item then true else contains rest item
  end.

(** [tagParts[0]] *)
Definition index0 (parts : list string) : Go string :=
  match parts with
  | p :: _ => ret p
  | [] => panic "index out of range [0] with length 0"
  end.

(** One turn of the loop of [BuildUpdateSet], for index [i]. *)
Definition loop_body (setValue : Value) (setFields : bsonM) (i : nat) : Go unit :=
  field <- Field setValue i ;;
  fieldType <- Type_Field setValue i ;;
  can <- CanInterface field ;;
  if negb can then ret tt else
  let bsonTag := Get (Tag fieldType) "bson" in
  if (String.eqb bsonTag EmptyString || String.eqb bsonTag "-")%bool then ret tt else
  let tagParts := Split bsonTag "," in
  fieldName <- index0 tagParts ;;
  let fieldName :=
    if String.eqb fieldName EmptyString then ToLower (Name fieldType) else fieldName in
  skip <- (if ((1 <? List.length tagParts)%nat && contains (drop 1 tagParts) "omitempty")%bool
           then IsZero field else ret false) ;;
  if (skip : bool) then ret tt else
  if String.eqb fieldName "_id" then ret tt else
  x <- Interface field ;;
  map_assign setFields fieldName x.

(** [for i := 0; i < setValue.NumField(); i++ { ... }], over the indexes
    the counter takes. *)
Fixpoint loop (setValue : Value) (setFields : bsonM) (idx : list nat) : Go unit :=
  match idx with
  | [] => ret tt
  | i :: rest => loop_body setValue setFields i ;;; loop setValue setFields rest
  end.

(** [BuildUpdateSet]. [setType] is not carried on its own: the source reads
    it only through [setType.Field(i)] inside the loop, where it describes
    the struct [setValue] holds, and [Type_Field] reads that descriptor. *)
Definition BuildUpdateSet (data : any) : Go bsonM :=
  update <- new_M ;;
  let setValue := ValueOf data in
  setValue <- (if decide (Kind_of setValue = KPtr) then Elem setValue else ret setValue) ;;
  if decide (Kind_of setValue <> KStruct) then ret update else
  setFields <- new_M ;;
  n <- NumField setValue ;;
  loop setValue setFields (seq 0 n) ;;;
  len <- map_len setFields ;;
  (if (0 <? len)%nat then map_assign update "$set" (Some (VM setFields)) else ret tt) ;;;
  ret update.

(** ** What one field contributes *)

(** The [bson] tag of a field, as the loop reads it. *)
Definition bson_tag (f : StructField) : string := Get (Tag f) "bson".

(** Condition (a): the tag is neither empty (or absent) nor exactly [-]. *)
Definition has_tag (f : StructField) : bool :=
  negb (String.eqb (bson_tag f) EmptyString) && negb (String.eqb (bson_tag f) "-").

(** The part of the tag before the first comma. *)
Definition primary_name (f : StructField) : string :=
  hd EmptyString (Split (bson_tag f) ",").

(** The resolved external name. *)
Definition external_name (f : StructField) : string :=
  if String.eqb (primary_name f) EmptyString then ToLower (Name f) else primary_name f.

(** Whether [omitempty] is among the modifiers after the primary name. *)
Definition omitempty (f : StructField) : bool :=
  contains (drop 1 (Split (bson_tag f) ",")) "omitempty".

(** Condition (b) fails: marked [omitempty] and holding the zero value. *)
Definition omitted (f : StructField) (x : value) : bool :=
  omitempty f && is_zero x.

(** The field's value boxed as [interface{}], as [Value.Interface] gives it. *)
Definition boxed (x : value) : any :=
  match x with VIface h => h | _ => Some x end.

(** A field that reaches the assignment [setFields[fieldName] = ...]. *)
Definition included (fx : StructField * value) : bool :=
  IsExported fx.1 && has_tag fx.1 && negb (omitted fx.1 fx.2)
  && negb (String.eqb (external_name fx.1) "_id").

(** The effect of one loop turn on the contents of [setFields]. *)
Definition step (m : gmap string any) (fx : StructField * value) : gmap string any :=
  if included fx then <[external_name fx.1 := boxed fx.2]> m else m.

(** The contents of [setFields] after the loop. *)
Definition set_fields (fs : list (StructField * value)) : gmap string any :=
  foldl step ∅ fs.

(** ** Reading results back from the store *)

(** The contents of a [bson.M]. *)
Definition read_M (st : store) (m : bsonM) : option (gmap string any) :=
  match m with
  | None => None
  | Some l => match st !! l with Some (CM mm) => Some mm | _ => None end
  end.

(** The sub-document under [$set], when there is one. *)
Definition set_doc (st : store) (m : bsonM) : option (gmap string any) :=
  match read_M st m with
  | Some top => match top !! "$set" with
                | Some (Some (VM r)) => read_M st r
                | _ => None
                end
  | None => None
  end.

(** The entry of the [$set] sub-document under a name. *)
Definition set_entry (st : store) (m : bsonM) (k : string) : option any :=
  match set_doc st m with Some F => F !! k | None => None end.

(** A document seen structurally, two levels deep: an entry that refers to a
    [bson.M] is shown by the contents of that map, any other entry as it is. *)
Inductive entry_view :=
| Leaf (x : any)
| Doc (m : gmap string any).

Definition view_entry (st : store) (x : any) : entry_view :=
  match x with
  | Some (VM (Some l)) =>
      match st !! l with Some (CM m) => Doc m | _ => Leaf x end
  | _ => Leaf x
  end.

Definition view (st : store) (m : bsonM) : option (gmap string entry_view) :=
  match read_M st m with
  | Some top => Some (view_entry st <$> top)
  | None => None
  end.

(** ** Inputs *)

(** The input is a struct with the given fields, passed directly or behind
    one pointer. *)
Definition struct_input (st : store) (data : any) (fs : list (StructField * value)) : Prop :=
  data = Some (VStruct fs) \/
  exists p, data = Some (VPtr (Some p)) /\ st !! p = Some (CVal (VStruct fs)).

(** Memory safety of Go: a non-nil pointer handed to the function points to
    an allocated value. *)
Definition valid_input (st : store) (data : any) : Prop :=
  forall p, data = Some (VPtr (Some p)) -> exists x, st !! p = Some (CVal x).

(** The update document the builder is to produce for a field list. *)
Definition update_doc (fs : list (StructField * value)) : gmap string entry_view :=
  if decide (set_fields fs = ∅) then ∅ else {[ "$set" := Doc (set_fields fs) ]}.

(** ** The builder, summarised *)

(** The store after a call on a struct with fields [fs]: the result map at
    the first fresh address, the field set at the next one. *)
Definition built (st : store) (fs : list (StructField * value)) : store :=
  let l1 := fresh (dom st) in
  let st1 := <[l1 := CM ∅]> st in
  let l2 := fresh (dom st1) in
  if decide (set_fields fs = ∅) then <[l2 := CM ∅]> st1
  else <[l1 := CM {[ "$set" := Some (VM (Some l2)) ]}]>
         (<[l2 := CM (set_fields fs)]> st1).

(** The fields the loop walks: those of the struct reached after at most one
    dereference, none for any other input. *)
Definition input_fields (st : store) (data : any) : list (StructField * value) :=
  match data with
  | Some (VStruct fs) => fs
  | Some (VPtr (Some p)) =>
      match st !! p with Some (CVal (VStruct fs)) => fs | _ => [] end
  | _ => []
  end.

(** A field that is assigned under the name [k]. *)
Definition contributes (k : string) (fx : StructField * value) : Prop :=
  included fx = true /\ external_name fx.1 = k.

Global Instance contributes_dec k fx : Decision (contributes k fx).
Proof. unfold contributes. apply _. Defined.

(** ** mongo/document.go *)

(** An exported field with its [bson] and [json] tags. *)
Definition exported (name : string) (tag : StructTag) : StructField :=
  mkStructField name EmptyString tag false.

(** [primitive.ObjectID], a [[12]byte]. *)
Definition ObjectID := list Z.

Definition ObjectID_val (id : ObjectID) : value := VArray (VUint <$> id).

(** [time.Time]: three unexported fields of package time. *)
Record Time := mkTime {
  wall : Z;
  ext : Z;
  tloc : option loc
}.

Definition Time_val (t : Time) : value :=
  VStruct [ (mkStructField "wall" "time" [] false, VUint (wall t));
            (mkStructField "ext" "time" [] false, VInt (ext t));
            (mkStructField "loc" "time" [] false, VPtr (tloc t)) ].

Record BaseDocument := mkBaseDocument {
  ID : ObjectID;
  CreatedAt : Time;
  UpdatedAt : Time
}.

Definition BaseDocument_val (d : BaseDocument) : value :=
  VStruct
    [ (exported "ID" [("bson", "_id,omitempty"); ("json", "id,omitempty")],
       ObjectID_val (ID d));
      (exported "CreatedAt" [("bson", "created_at"); ("json", "created_at")],
       Time_val (CreatedAt d));
      (exported "UpdatedAt" [("bson", "updated_at"); ("json", "updated_at")],
       Time_val (UpdatedAt d)) ].






(** ** mongo/operations.go *)

(** The driver's [*mongo.Collection], as far as the repository calls it: each
    method reads the documents it is handed from the store and answers with
    a result and an error (its message, when there is one). *)
Record mongo_Collection := mkCollection {
  driver_UpdateOne : bsonM -> bsonM -> store -> value * option string;
  driver_UpdateMany : bsonM -> bsonM -> store -> value * option string
}.

Record Repository := mkRepository {
  collection : mongo_Collection
}.

(** A call into the driver. *)
Definition call {A} (f : store -> A) : Go A := fun st => Ok (f st) st.

(** [if err != nil { return nil, fmt.Errorf(prefix + ": %w", err) };
    return result, nil] *)
Definition wrap (prefix : string) (res : value * option string) : any * option string :=
  match res.2 with
  | Some err => (None, Some (prefix ++ ": " ++ err))
  | None => (Some res.1, None)
  end.

(** [Repository.UpdateOne]; [now] is what [time.Now()] returns. *)
Definition UpdateOne (r : Repository) (now : value) (filter update : bsonM)
  : Go (any * option string) :=
  s <- map_index update "$set" ;;
  (match s with
   | None => m <- new_M ;; map_assign update "$set" (Some (VM m))
   | Some _ => ret tt
   end) ;;;
  s <- map_index update "$set" ;;
  m <- assert_M s ;;
  map_assign m "updated_at" (Some now) ;;;
  res <- call (driver_UpdateOne (collection r) filter update) ;;
  ret (wrap "failed to update document" res).

(** [Repository.UpdateMany] *)
Definition UpdateMany (r : Repository) (now : value) (filter update : bsonM)
  : Go (any * option string) :=
  s <- map_index update "$set" ;;
  (match s with
   | None => m <- new_M ;; map_assign update "$set" (Some (VM m))
   | Some _ => ret tt
   end) ;;;
  s <- map_index update "$set" ;;
  m <- assert_M s ;;
  map_assign m "updated_at" (Some now) ;;;
  res <- call (driver_UpdateMany (collection r) filter update) ;;
  ret (wrap "failed to update documents" res).

(** An update the two methods can stamp: a non-nil map whose [$set] entry is
    missing or nil, or is a non-nil [bson.M]. *)
Definition updatable (st : store) (update : bsonM) : Prop :=
  exists l top,
    update = Some l /\ st !! l = Some (CM top) /\
    (mjoin (top !! "$set") = None \/
     exists l2 F, mjoin (top !! "$set") = Some (VM (Some l2)) /\
                  st !! l2 = Some (CM F)).

(** What stamping leaves behind: the time under [updated_at] of the [$set]
    sub-document of the caller's map, the other entries of that sub-document
    as before, a [$set] key made when there was none, and an empty update
    turned into a [$set] of the time alone. *)
Definition stamped (now : value) (update : bsonM) (st st' : store) : Prop :=
  set_entry st' update "updated_at" = Some (Some now) /\
  (forall k, k <> "updated_at" -> set_entry st' update k = set_entry st update k) /\
  (forall top, read_M st update = Some top -> mjoin (top !! "$set") = None ->
     exists l, st !! l = None /\
       read_M st' update = Some (<["$set" := Some (VM (Some l))]> top)) /\
  (view st update = Some ∅ ->
     view st' update = Some {[ "$set" := Doc {[ "updated_at" := Some now ]} ]}).

(** ** Sample inputs *)

Definition tagged (name tag : string) : StructField :=
  exported name [("bson", tag)].

(** The record of the scenarios: an identity, a name and a bio. *)
Definition scenario_record (identity : value) (bio : string) : value :=
  VStruct [ (tagged "ID" "_id", identity);
            (tagged "Name" "username", VString "alice");
            (tagged "Bio" "profile.bio,omitempty", VString bio) ].

(** A record whose identity is set, and one with two fields of one name. *)
Definition identity_only : list (StructField * value) :=
  [ (tagged "ID" "_id", VInt 7) ].

Definition same_name_twice : list (StructField * value) :=
  [ (tagged "A" "x", VInt 1); (tagged "B" "x", VInt 2) ].

(** A record with an untagged name, a suppressed field, an unexported one, a
    zero and a negative floating-point zero, and a store that holds it at
    address 5. *)
Definition mixed_fields : list (StructField * value) :=
  [ (tagged "ID" "_id,omitempty", VInt 7);
    (tagged "Nick" ",omitempty", VString "al");
    (tagged "Secret" "-", VString "s");
    (mkStructField "hidden" "main" [("bson", "hidden")] false, VInt 1);
    (tagged "Age" "age,omitempty", VInt 0);
    (tagged "Score" "score,omitempty", VFloat 9223372036854775808) ].

Definition mixed_store : store := {[ 5%positive := CVal (VStruct mixed_fields) ]}.

(** The inclusion rule read with conditions (a) and (b) alone: an exported
    field has its own value under its external name exactly when it has a
    tag and is not omitted as empty. *)
Definition inclusion_by_tag_and_value
    (st : store) (data : any) (fs : list (StructField * value)) : Prop :=
  exists r st',
    BuildUpdateSet data st = Ok r st' /\
    forall f x, (f, x) ∈ fs -> IsExported f = true ->
      (has_tag f = true /\ omitted f x = false
       <-> set_entry st' r (external_name f) = Some (boxed x)).

(** A user with nothing set. *)
Definition zero_Time : Time := mkTime 0 0 None.


(** A repository whose driver accepts everything, a reading of the clock, and
    an update whose [$set] is a [bson.D] with one element. *)
Definition stub_Repository : Repository :=
  mkRepository (mkCollection (fun _ _ _ => (VInt 0, None)) (fun _ _ _ => (VInt 0, None))).

Definition a_time : value := Time_val (mkTime 1 2 None).

Definition set_as_D : store :=
  {[ 1%positive :=
       CM {[ "$set" :=
               Some (VSlice (Some [ VStruct [ (exported "Key" [], VString "name");
                                              (exported "Value" [], VIface (Some (VString "x"))) ] ])) ]} ]}.

(** The update [BuildUpdateSet] returns for an input without fields. *)
Definition empty_update : store := {[ 1%positive := CM ∅ ]}.

(** ** More of mongo/utils.go *)

(** The body of a loop run on each item in turn. *)
Fixpoint for_each {A} (items : list A) (body : A -> Go unit) : Go unit :=
  match items with
  | [] => ret tt
  | x :: rest => body x ;;; for_each rest body
  end.

(** [for key, value := range m { ... }] over a [map[string]interface{}]
    that the body does not write to: the entries the map has when the loop
    starts, in the order [visit] gives them. Go leaves that order open. A
    nil map has no entries. *)
Definition range_M (visit : gmap string any -> list (string * any)) (m : bsonM)
    (body : string * any -> Go unit) : Go unit :=
  fun st => match m with
            | None => Ok tt st
            | Some l => match st !! l with
                        | Some (CM mm) => for_each (visit mm) body st
                        | _ => Panic "invalid memory address"
                        end
            end.

(** The orders a [range] may take: every entry of the map, once. *)
Definition visits_all {V} (visit : gmap string V -> list (string * V)) : Prop :=
  forall mm, visit mm ≡ₚ map_to_list mm.

(** [BuildFilter] *)
Definition BuildFilter (visit : gmap string any -> list (string * any))
    (conditions : bsonM) : Go bsonM :=
  filter <- new_M ;;
  range_M visit conditions
    (fun kv => match kv.2 with
               | Some _ => map_assign filter kv.1 kv.2
               | None => ret tt
               end) ;;;
  ret filter.

(** [MergeBsonM]; the [i]-th document is ranged over in the order
    [visit i]. *)
Definition MergeBsonM (visit : nat -> gmap string any -> list (string * any))
    (docs : list bsonM) : Go bsonM :=
  result <- new_M ;;
  for_each (imap (fun i doc => (i, doc)) docs)
    (fun idoc => range_M (visit idoc.1) idoc.2
                   (fun kv => map_assign result kv.1 kv.2)) ;;;
  ret result.

(** [append(s, x)] *)
Definition append {A} (s : slice A) (x : A) : slice A :=
  Some (default [] s ++ [x])%list.

(** [BuildSort]; [sorts] is a [map[string]int], nil or with contents. *)
Definition BuildSort (visit : gmap string Z -> list (string * Z))
    (sorts : option (gmap string Z)) : bsonD :=
  foldl (fun sortDoc fo => append sortDoc (fo.1, Some (VInt fo.2))) None
        (match sorts with None => [] | Some m => visit m end).

(** The two functions of the driver's package primitive that the wrappers
    call: [ObjectIDFromHex], with its error, and [ObjectID.Hex]. *)
Record primitive := mkPrimitive {
  ObjectIDFromHex : string -> ObjectID + string;
  Hex : ObjectID -> string
}.

Definition ObjectIDFromString (P : primitive) (s : string) : ObjectID + string :=
  ObjectIDFromHex P s.

(** The loop of [ObjectIDsFromStrings], from the ids gathered so far. *)
Fixpoint ObjectIDsFromStrings_from (P : primitive) (ids : slice ObjectID)
    (strs : list string) : slice ObjectID * option string :=
  match strs with
  | [] => (ids, None)
  | str :: rest =>
      match ObjectIDFromString P str with
      | inr _ => (None, Some ("invalid ObjectID: " ++ str))
      | inl id => ObjectIDsFromStrings_from P (append ids id) rest
      end
  end.

(** [ObjectIDsFromStrings]; a nil [strs] is ranged over like an empty one. *)
Definition ObjectIDsFromStrings (P : primitive) (strs : list string)
  : slice ObjectID * option string :=
  ObjectIDsFromStrings_from P None strs.

Definition StringFromObjectID (P : primitive) (id : ObjectID) : string := Hex P id.

(** [StringsFromObjectIDs] *)
Definition StringsFromObjectIDs (P : primitive) (ids : list ObjectID) : slice string :=
  foldl (fun strs id => append strs (Hex P id)) None ids.

(** [ValidateObjectID] *)
Definition ValidateObjectID (P : primitive) (id : string) : bool :=
  match ObjectIDFromHex P id with inl _ => true | inr _ => false end.

(** A lower-case hexadecimal codec for twelve bytes, standing in for the
    driver's in examples. *)
Definition hex_digit (n : Z) : ascii :=
  ascii_of_nat (Z.to_nat (if n <? 10 then 48 + n else 87 + n)).

Definition hex_value (c : ascii) : option Z :=
  let n := Z.of_nat (nat_of_ascii c) in
  if (48 <=? n) && (n <=? 57) then Some (n - 48)
  else if (97 <=? n) && (n <=? 102) then Some (n - 87)
  else if (65 <=? n) && (n <=? 70) then Some (n - 55)
  else None.

Fixpoint hex_encode (bytes : list Z) : string :=
  match bytes with
  | [] => EmptyString
  | b :: rest => String (hex_digit (b / 16)) (String (hex_digit (b mod 16)) (hex_encode rest))
  end.

Fixpoint hex_decode (s : string) : option (list Z) :=
  match s with
  | EmptyString => Some []
  | String hi (String lo rest) =>
      match hex_value hi, hex_value lo, hex_decode rest with
      | Some h, Some l, Some bytes => Some (16 * h + l :: bytes)
      | _, _, _ => None
      end
  | String _ EmptyString => None
  end.

Definition hex_primitive : primitive :=
  mkPrimitive
    (fun s => if Nat.eqb (String.length s) 24
              then match hex_decode s with
                   | Some bytes => inl bytes
                   | None => inr "encoding/hex: invalid byte"
                   end
              else inr "the provided hex string is not a valid ObjectID")
    hex_encode.

(** ** More of mongo/operations.go *)

(** [int64] arithmetic: results wrap around; division truncates towards
    zero and panics on a zero divisor. *)
Definition wrap64 (z : Z) : Z := (z + 2 ^ 63) mod 2 ^ 64 - 2 ^ 63.

Definition add64 (a b : Z) : Z := wrap64 (a + b).
Definition sub64 (a b : Z) : Z := wrap64 (a - b).
Definition mul64 (a b : Z) : Z := wrap64 (a * b).

Definition div64 (a b : Z) : Go Z :=
  if b =? 0 then panic "runtime error: integer divide by zero"
  else ret (wrap64 (Z.quot a b)).

Record PaginationResult := mkPaginationResult {
  Page : Z;
  PageSize : Z;
  Total : Z;
  TotalPage : Z
}.

(** The query side of the driver's [*mongo.Collection]: [Find] with the skip
    and the limit of its options, [cursor.All], which decodes into the
    caller's [results] and so may change the store, and [CountDocuments]. *)
Record mongo_Queries := mkQueries {
  driver_Find : bsonM -> Z -> Z -> store -> value * option string;
  cursor_All : value -> any -> store -> store * option string;
  driver_CountDocuments : bsonM -> store -> Z * option string
}.

(** [Repository.FindWithPagination]. The deferred [cursor.Close(ctx)] acts
    on the driver's cursor alone and is left out. *)
Definition FindWithPagination (q : mongo_Queries) (filter : bsonM)
    (page pageSize : Z) (results : any)
  : Go (option PaginationResult * option string) :=
  let skip := mul64 (sub64 page 1) pageSize in
  found <- call (driver_Find q filter skip pageSize) ;;
  match found.2 with
  | Some err => ret (None, Some ("failed to find documents" ++ ": " ++ err))
  | None =>
      err <- (fun st => let r := cursor_All q found.1 results st in Ok r.2 r.1) ;;
      match err with
      | Some err => ret (None, Some ("failed to decode documents" ++ ": " ++ err))
      | None =>
          counted <- call (driver_CountDocuments q filter) ;;
          match counted.2 with
          | Some err => ret (None, Some ("failed to count documents" ++ ": " ++ err))
          | None =>
              let total := counted.1 in
              totalPage <- div64 (sub64 (add64 total pageSize) 1) pageSize ;;
              ret (Some (mkPaginationResult page pageSize total totalPage), None)
          end
      end
  end.

(** [Repository.UpdateByID] *)
Definition UpdateByID (r : Repository) (now : value) (id : ObjectID) (update : bsonM)
  : Go (any * option string) :=
  filter <- new_M ;;
  map_assign filter "_id" (Some (ObjectID_val id)) ;;;
  UpdateOne r now filter update.

(** ** mongo/index.go *)

(** The index view of the driver's collection: [Indexes().List], and
    [cursor.All] decoding into a fresh [[]bson.M]. *)
Record mongo_IndexView := mkIndexView {
  driver_List : store -> value * option string;
  cursor_All_M : value -> store -> (slice bsonM * store) * option string
}.

(** [IndexManager.ListIndexes] *)
Definition ListIndexes (iv : mongo_IndexView) : Go (slice bsonM * option string) :=
  listed <- call (driver_List iv) ;;
  match listed.2 with
  | Some err => ret (None, Some ("failed to list indexes" ++ ": " ++ err))
  | None =>
      decoded <- (fun st => let r := cursor_All_M iv listed.1 st in
                            Ok (r.1.1, r.2) r.1.2) ;;
      match decoded.2 with
      | Some err => ret (None, Some ("failed to decode indexes" ++ ": " ++ err))
      | None => ret (decoded.1, None)
      end
  end.

(** The loop of [IndexManager.IndexExists]; [index["name"].(string)] with
    the comma-ok form. *)
Fixpoint IndexExists_loop (indexes : list bsonM) (name : string) : Go bool :=
  match indexes with
  | [] => ret false
  | index :: rest =>
      x <- map_index index "name" ;;
      match x with
      | Some (VString indexName) =>
          if String.eqb indexName name then ret true
          else IndexExists_loop rest name
      | _ => IndexExists_loop rest name
      end
  end.

(** [IndexManager.IndexExists] *)
Definition IndexExists (iv : mongo_IndexView) (name : string)
  : Go (bool * option string) :=
  listed <- ListIndexes iv ;;
  match listed.2 with
  | Some err => ret (false, Some err)
  | None =>
      found <- IndexExists_loop (default [] listed.1) name ;;
      ret (found, None)
  end.

(** The keys [IndexManager.CreateCompoundIndex] builds from its
    [map[string]int] before it calls [CreateIndex]. *)
Definition CreateCompoundIndex_keys (visit : gmap string Z -> list (string * Z))
    (fields : option (gmap string Z)) : bsonD :=
  foldl (fun keys fo => append keys (fo.1, Some (VInt fo.2))) (Some [])
        (match fields with None => [] | Some m => visit m end).

(** [IndexManager.CreateIndex]; [createOne] is the driver's
    [Indexes().CreateOne] on the index model made of the keys and the
    options. The log line is left out. *)
Definition CreateIndex (createOne : bsonD -> any -> store -> string * option string)
    (keys : bsonD) (opts : any) : Go (string * option string) :=
  created <- call (createOne keys opts) ;;
  match created.2 with
  | Some err => ret (EmptyString, Some ("failed to create index" ++ ": " ++ err))
  | None => ret (created.1, None)
  end.

(** [IndexManager.CreateCompoundIndex] *)
Definition CreateCompoundIndex (visit : gmap string Z -> list (string * Z))
    (createOne : bsonD -> any -> store -> string * option string)
    (fields : option (gmap string Z)) (opts : any) : Go (string * option string) :=
  CreateIndex createOne (CreateCompoundIndex_keys visit fields) opts.

(** ** Sample collaborators *)

(** The fields of [BaseDocument_val], by themselves. *)
Definition BaseDocument_fields (d : BaseDocument) : list (StructField * value) :=
  [ (exported "ID" [("bson", "_id,omitempty"); ("json", "id,omitempty")],
     ObjectID_val (ID d));
    (exported "CreatedAt" [("bson", "created_at"); ("json", "created_at")],
     Time_val (CreatedAt d));
    (exported "UpdatedAt" [("bson", "updated_at"); ("json", "updated_at")],
     Time_val (UpdatedAt d)) ].

(** A query driver that finds, decodes and counts 41 documents. *)
Definition stub_Queries : mongo_Queries :=
  mkQueries (fun _ _ _ _ => (VInt 0, None)) (fun _ _ st => (st, None))
            (fun _ _ => (41, None)).

(** A store with two decoded index documents, the second without a string
    name, and an index view that lists them. *)
Definition index_store : store :=
  {[ 1%positive := CM {[ "name" := Some (VString "_id_") ]};
     2%positive := CM {[ "name" := Some (VInt 3) ]};
     3%positive := CM {[ "name" := Some (VString "idx_email") ]} ]}.

Definition stub_IndexView : mongo_IndexView :=
  mkIndexView (fun _ => (VInt 0, None))
              (fun _ st => ((Some [Some 1%positive; Some 2%positive; None; Some 3%positive], st), None)).

(** ** The monad's equations *)

Lemma bind_Ok {A B} (c : Go A) (k : A -> Go B) st a st' :
  c st = Ok a st' -> bind c k st = k a st'.
Proof. intros H. unfold bind. by rewrite H. Qed.

Lemma bind_ret {A B} (a : A) (k : A -> Go B) st : bind (ret a) k st = k a st.
Proof. reflexivity. Qed.

Lemma new_M_fresh (st : store) : st !! fresh (dom st) = None.
Proof. apply not_elem_of_dom, is_fresh. Qed.

Lemma map_assign_Ok (st : store) l mm k v :
  st !! l = Some (CM mm) ->
  map_assign (Some l) k v st = Ok tt (<[l := CM (<[k := v]> mm)]> st).
Proof. intros H. unfold map_assign. by rewrite H. Qed.

(** ** The string and zero-value helpers on small inputs *)

Example Split_inline : Split ",inline" "," = [EmptyString; "inline"].
Proof. reflexivity. Qed.

Example Split_no_comma : Split "username" "," = ["username"].
Proof. reflexivity. Qed.

Example ToLower_BaseDocument : ToLower "BaseDocument" = "basedocument".
Proof. reflexivity. Qed.

Example contains_omitempty : contains ["inline"; "omitempty"] "omitempty" = true.
Proof. reflexivity. Qed.

Example Get_absent : Get [("json", "id")] "bson" = EmptyString.
Proof. reflexivity. Qed.

(** A nil slice is zero, an empty slice that is not nil is not. *)
Example is_zero_slices :
  is_zero (VSlice None) = true /\ is_zero (VSlice (Some [])) = false.
Proof. split; reflexivity. Qed.

(** A negative zero is zero, alone and inside a struct or an array; a NaN is
    not. *)
Example is_zero_floats :
  is_zero (VFloat 9223372036854775808) = true /\
  is_zero (VComplex 0 9223372036854775808) = true /\
  is_zero (VArray [VFloat 0; VFloat 9223372036854775808]) = true /\
  is_zero (VFloat 9221120237041090560) = false.
Proof. repeat split; reflexivity. Qed.

(** A name with a byte outside ASCII goes through the Unicode tables. *)
Example ToLower_beyond_ASCII :
  ToLower "Ärger" = unicode_ToLower "Ärger".
Proof. reflexivity. Qed.

(** ** The loop *)

Lemma Split_cons s sep : exists p ps, Split s sep = p :: ps.
Proof.
  induction s as [|c r IH]; simpl; [by eauto|].
  destruct (Ascii.eqb c sep); [by eauto|].
  destruct IH as (p & ps & ->). by eauto.
Qed.

Lemma loop_body_step fs i fx l m st :
  fs !! i = Some fx ->
  st !! l = Some (CM m) ->
  loop_body (mkValue (Some (VStruct fs)) false) (Some l) i st
  = Ok tt (<[l := CM (step m fx)]> st).
Proof.
  intros Hi Hl. destruct fx as [f x].
  assert (Hid : Ok tt st = Ok tt (<[l := CM m]> st)) by (by rewrite insert_id).
  unfold loop_body, step, included, has_tag, omitted, external_name,
    primary_name, omitempty, bson_tag, Field, Type_Field.
  cbn [payload flagRO fst snd]. rewrite Hi. cbn [orb].
  rewrite !bind_ret. unfold CanInterface. cbn [payload flagRO]. rewrite bind_ret.
  rewrite negb_involutive.
  destruct (IsExported f); cbn [negb andb]; [|exact Hid].
  destruct (Get (Tag f) "bson" =? EmptyString)%string eqn:E1; cbn [negb andb orb]; [exact Hid|].
  destruct (Get (Tag f) "bson" =? "-")%string eqn:E2; cbn [negb andb orb]; [exact Hid|].
  destruct (Split_cons (Get (Tag f) "bson") ",") as (p & ps & ->).
  cbn [index0 hd drop List.length]. rewrite bind_ret, !drop_0.
  assert (Hc : ((1 <? S (List.length ps))%nat && contains ps "omitempty")%bool
               = contains ps "omitempty") by (destruct ps; reflexivity).
  rewrite Hc. clear Hc.
  destruct (contains ps "omitempty"); cbn [andb].
  - unfold IsZero. cbn [payload]. rewrite bind_ret.
    destruct (is_zero x); cbn [negb andb]; [exact Hid|].
    destruct (String.eqb (if (p =? EmptyString)%string then ToLower (Name f) else p) "_id");
      cbn [negb andb]; [exact Hid|].
    unfold Interface. cbn [payload flagRO]. rewrite bind_ret.
    by apply map_assign_Ok.
  - rewrite bind_ret.
    destruct (String.eqb (if (p =? EmptyString)%string then ToLower (Name f) else p) "_id");
      cbn [negb andb]; [exact Hid|].
    unfold Interface. cbn [payload flagRO]. rewrite bind_ret.
    by apply map_assign_Ok.
Qed.

Lemma loop_steps fs idx xs l : forall m st,
  Forall2 (fun i fx => fs !! i = Some fx) idx xs ->
  st !! l = Some (CM m) ->
  loop (mkValue (Some (VStruct fs)) false) (Some l) idx st
  = Ok tt (<[l := CM (foldl step m xs)]> st).
Proof.
  intros m st H. revert m st.
  induction H as [|i fx idx xs Hi _ IH]; intros m st Hl; simpl.
  - unfold ret. by rewrite insert_id.
  - rewrite (bind_Ok _ _ _ _ _ (loop_body_step _ _ _ _ _ _ Hi Hl)).
    rewrite (IH (step m fx)); [|by rewrite lookup_insert_eq].
    by rewrite insert_insert_eq.
Qed.

Lemma seq_indexes {A} (fs : list A) :
  Forall2 (fun i fx => fs !! i = Some fx) (seq 0 (List.length fs)) fs.
Proof.
  apply Forall2_same_length_lookup_2; [by rewrite length_seq|].
  intros i j fx Hj Hfx. apply lookup_seq in Hj as [-> _]. exact Hfx.
Qed.

Lemma struct_body (st1 : store) l1 fs :
  st1 !! l1 = Some (CM ∅) ->
  let l2 := fresh (dom st1) in
  (setValue <- ret (mkValue (Some (VStruct fs)) false) ;;
   if decide (Kind_of setValue <> KStruct) then ret (Some l1) else
   setFields <- new_M ;;
   n <- NumField setValue ;;
   loop setValue setFields (seq 0 n) ;;;
   len <- map_len setFields ;;
   (if (0 <? len)%nat then map_assign (Some l1) "$set" (Some (VM setFields)) else ret tt) ;;;
   ret (Some l1)) st1
  = Ok (Some l1)
      (if decide (set_fields fs = ∅) then <[l2 := CM ∅]> st1
       else <[l1 := CM {[ "$set" := Some (VM (Some l2)) ]}]>
              (<[l2 := CM (set_fields fs)]> st1)).
Proof.
  intros H1 l2. rewrite bind_ret.
  assert (Hne : l1 <> l2).
  { intros ->. pose proof (new_M_fresh st1) as Hf. fold l2 in Hf. congruence. }
  destruct (decide (Kind_of (mkValue (Some (VStruct fs)) false) <> KStruct)) as [Hk|_];
    [by destruct Hk|].
  unfold new_M at 1. unfold bind at 1. fold l2.
  unfold NumField. cbn [payload]. rewrite bind_ret.
  erewrite bind_Ok; last first.
  { apply (loop_steps fs _ fs l2 ∅); [apply seq_indexes|apply lookup_insert_eq]. }
  rewrite insert_insert_eq. fold (set_fields fs).
  erewrite bind_Ok; last first.
  { unfold map_len. by rewrite lookup_insert_eq. }
  destruct (decide (set_fields fs = ∅)) as [E|E].
  - rewrite E, map_size_empty. reflexivity.
  - assert ((0 <? size (set_fields fs))%nat = true) as ->.
    { apply Nat.ltb_lt. apply map_size_non_empty_iff in E. lia. }
    erewrite bind_Ok; last first.
    { apply map_assign_Ok. rewrite lookup_insert_ne by done. exact H1. }
    by rewrite insert_empty.
Qed.

Lemma Elem_pointer (st : store) p x :
  st !! p = Some (CVal x) ->
  Elem (ValueOf (Some (VPtr (Some p)))) st = Ok (mkValue (Some x) false) st.
Proof. intros H. unfold Elem, ValueOf. cbn [payload flagRO]. by rewrite H. Qed.

Lemma Elem_nil (st : store) :
  Elem (ValueOf (Some (VPtr None))) st = Ok (mkValue None false) st.
Proof. reflexivity. Qed.

Lemma BuildUpdateSet_struct (st : store) data fs :
  struct_input st data fs ->
  BuildUpdateSet data st = Ok (Some (fresh (dom st))) (built st fs).
Proof.
  intros Hin. unfold BuildUpdateSet, built.
  unfold new_M at 1. unfold bind at 1.
  set (l1 := fresh (dom st)). set (st1 := <[l1 := CM ∅]> st).
  assert (H1 : st1 !! l1 = Some (CM ∅)) by apply lookup_insert_eq.
  destruct Hin as [->|(p & -> & Hp)].
  - cbn [ValueOf Kind_of payload kind_of].
    destruct (decide (KStruct = KPtr)) as [?|_]; [done|].
    by apply (struct_body st1 l1 fs).
  - cbn [ValueOf Kind_of payload kind_of].
    destruct (decide (KPtr = KPtr)) as [_|?]; [|done].
    assert (Hp1 : st1 !! p = Some (CVal (VStruct fs))).
    { subst st1. rewrite lookup_insert_ne; [done|].
      intros <-. pose proof (new_M_fresh st). fold l1 in H. congruence. }
    rewrite (bind_Ok _ _ _ _ _ (Elem_pointer _ _ _ Hp1)).
    exact (struct_body st1 l1 fs H1).
Qed.

Lemma struct_input_fields st data fs :
  struct_input st data fs -> input_fields st data = fs.
Proof.
  intros [->|(p & -> & Hp)]; [done|]. unfold input_fields. by rewrite Hp.
Qed.

Lemma not_struct_fields st data :
  (forall fs, ~ struct_input st data fs) -> input_fields st data = [].
Proof.
  intros H. unfold input_fields.
  destruct data as [[]|]; try done.
  - exfalso. eapply H. by left.
  - destruct target as [p|]; [|done].
    destruct (st !! p) as [[[]|]|] eqn:E; try done.
    exfalso. eapply H. right. eauto.
Qed.

Lemma kind_struct x : kind_of x = KStruct -> exists fs, x = VStruct fs.
Proof. destruct x; try discriminate. eauto. Qed.

Lemma BuildUpdateSet_other (st : store) data :
  valid_input st data ->
  (forall fs, ~ struct_input st data fs) ->
  BuildUpdateSet data st
  = Ok (Some (fresh (dom st))) (<[fresh (dom st) := CM ∅]> st).
Proof.
  intros Hv Hns. unfold BuildUpdateSet.
  unfold new_M at 1. unfold bind at 1.
  set (l1 := fresh (dom st)). set (st1 := <[l1 := CM ∅]> st).
  assert (Hret : forall v : Value, Kind_of v <> KStruct ->
    (if decide (Kind_of v <> KStruct) then ret (Some l1) else
     setFields <- new_M ;;
     n <- NumField v ;;
     loop v setFields (seq 0 n) ;;;
     len <- map_len setFields ;;
     (if (0 <? len)%nat then map_assign (Some l1) "$set" (Some (VM setFields))
      else ret tt) ;;;
     ret (Some l1)) st1 = Ok (Some l1) st1).
  { intros v Hk. by destruct (decide (Kind_of v <> KStruct)). }
  destruct data as [x|].
  - destruct (decide (Kind_of (ValueOf (Some x)) = KPtr)) as [Hp|Hp].
    + destruct x; try discriminate Hp. destruct target as [p|].
      * destruct (Hv p eq_refl) as [y Hy].
        assert (Hy1 : st1 !! p = Some (CVal y)).
        { subst st1. rewrite lookup_insert_ne; [done|].
          intros <-. pose proof (new_M_fresh st) as Hf. fold l1 in Hf. congruence. }
        rewrite (bind_Ok _ _ _ _ _ (Elem_pointer _ _ _ Hy1)).
        apply Hret. cbn. intros Hk. apply kind_struct in Hk as [fs ->].
        eapply Hns. right. eauto.
      * rewrite (bind_Ok _ _ _ _ _ (Elem_nil st1)). by apply Hret.
    + rewrite bind_ret. apply Hret. cbn. intros Hk.
      apply kind_struct in Hk as [fs ->]. eapply Hns. by left.
  - destruct (decide (Kind_of (ValueOf None) = KPtr)) as [Hp|Hp]; [done|].
    rewrite bind_ret. by apply Hret.
Qed.

(** ** Reading the result *)

Lemma fresh_twice (st : store) c :
  fresh (dom st) <> fresh (dom (<[fresh (dom st) := c]> st)).
Proof.
  intros E. pose proof (new_M_fresh (<[fresh (dom st) := c]> st)) as Hf.
  rewrite <- E, lookup_insert_eq in Hf. done.
Qed.

Lemma built_subseteq (st : store) fs : st ⊆ built st fs.
Proof.
  unfold built.
  set (l1 := fresh (dom st)). set (st1 := <[l1 := CM ∅]> st).
  set (l2 := fresh (dom st1)).
  assert (H1 : st !! l1 = None) by apply new_M_fresh.
  assert (H2 : st1 !! l2 = None) by apply new_M_fresh.
  assert (H3 : st !! l2 = None).
  { subst st1. apply lookup_insert_None in H2. tauto. }
  assert (Hne : l1 <> l2) by apply fresh_twice.
  case_decide.
  - etrans; [apply (insert_subseteq st l1 (CM ∅) H1)|].
    by apply insert_subseteq.
  - subst st1. rewrite (insert_insert_ne _ l1 l2) by done.
    rewrite insert_insert_eq.
    etrans; [|apply insert_subseteq; by rewrite lookup_insert_ne].
    by apply insert_subseteq.
Qed.

Lemma built_lookups (st : store) fs :
  let l1 := fresh (dom st) in
  let l2 := fresh (dom (<[l1 := CM ∅]> st)) in
  built st fs !! l1
  = Some (CM (if decide (set_fields fs = ∅) then ∅
              else {[ "$set" := Some (VM (Some l2)) ]})) /\
  (set_fields fs <> ∅ -> built st fs !! l2 = Some (CM (set_fields fs))).
Proof.
  intros l1 l2. unfold built. fold l1. fold l2.
  assert (Hne : l1 <> l2) by apply fresh_twice.
  case_decide as E.
  - split; [|done]. rewrite lookup_insert_ne by done. apply lookup_insert_eq.
  - split; [apply lookup_insert_eq|]. intros _.
    rewrite lookup_insert_ne by done. apply lookup_insert_eq.
Qed.

(** The result reads the same in every later store that keeps the objects
    of the call. *)
Lemma set_doc_built (st st'' : store) fs :
  built st fs ⊆ st'' ->
  set_doc st'' (Some (fresh (dom st)))
  = if decide (set_fields fs = ∅) then None else Some (set_fields fs).
Proof.
  intros Hsub. destruct (built_lookups st fs) as [H1 H2].
  unfold set_doc, read_M. rewrite (lookup_weaken _ _ _ _ H1 Hsub).
  case_decide as E; [done|].
  rewrite lookup_singleton_eq. by rewrite (lookup_weaken _ _ _ _ (H2 E) Hsub).
Qed.

Lemma view_built (st st'' : store) fs :
  built st fs ⊆ st'' ->
  view st'' (Some (fresh (dom st))) = Some (update_doc fs).
Proof.
  intros Hsub. destruct (built_lookups st fs) as [H1 H2].
  unfold view, update_doc, read_M. rewrite (lookup_weaken _ _ _ _ H1 Hsub).
  case_decide as E; [by rewrite fmap_empty|].
  rewrite map_fmap_singleton. unfold view_entry.
  by rewrite (lookup_weaken _ _ _ _ (H2 E) Hsub).
Qed.

(** ** The field set, entry by entry *)

Lemma foldl_step_lookup fs : forall (m : gmap string any) k,
  foldl step m fs !! k
  = match last (filter (contributes k) fs) with
    | Some fx => Some (boxed fx.2)
    | None => m !! k
    end.
Proof.
  induction fs as [|fx fs IH]; intros m k; [done|].
  cbn [foldl]. rewrite IH, filter_cons.
  destruct (decide (contributes k fx)) as [[Hi Hk]|Hn].
  - rewrite last_cons.
    destruct (last (filter (contributes k) fs)); [done|].
    unfold step. rewrite Hi, Hk. apply lookup_insert_eq.
  - destruct (last (filter (contributes k) fs)); [done|].
    unfold step. destruct (included fx) eqn:Hi; [|done].
    apply lookup_insert_ne. intros Hk. apply Hn. by split.
Qed.

Lemma set_fields_lookup fs k :
  set_fields fs !! k
  = (fun fx => boxed fx.2) <$> last (filter (contributes k) fs).
Proof.
  unfold set_fields. rewrite foldl_step_lookup.
  by destruct (last (filter (contributes k) fs)).
Qed.

Lemma last_filter_is_Some {A} (P : A -> Prop) `{!forall x, Decision (P x)} (l : list A) :
  is_Some (last (filter P l)) <-> exists x, x ∈ l /\ P x.
Proof.
  split.
  - intros [x Hx]. apply last_Some_elem_of in Hx.
    apply list_elem_of_filter in Hx as [? ?]. eauto.
  - intros (x & Hin & HP).
    assert (Hx : x ∈ filter P l) by (apply list_elem_of_filter; done).
    destruct (filter P l) as [|y ys] eqn:E; [by apply not_elem_of_nil in Hx|].
    destruct (last (y :: ys)) eqn:El; [by eauto|].
    by apply last_None in El.
Qed.

Lemma set_fields_is_Some fs k :
  is_Some (set_fields fs !! k) <-> exists fx, fx ∈ fs /\ contributes k fx.
Proof.
  rewrite set_fields_lookup, fmap_is_Some. apply last_filter_is_Some.
Qed.

Lemma set_fields_no_id fs : set_fields fs !! "_id" = None.
Proof.
  apply eq_None_not_Some. rewrite set_fields_is_Some.
  intros (fx & _ & Hi & Hk). unfold included in Hi.
  rewrite Hk in Hi. rewrite andb_comm in Hi. discriminate Hi.
Qed.

Lemma set_fields_empty_iff fs :
  set_fields fs = ∅ <-> forall fx, fx ∈ fs -> included fx = false.
Proof.
  split.
  - intros E fx Hin. destruct (included fx) eqn:Hi; [|done].
    assert (is_Some (set_fields fs !! external_name fx.1)) as [? Hs].
    { apply set_fields_is_Some. exists fx. by repeat split. }
    rewrite E, lookup_empty in Hs. done.
  - intros H. apply map_eq. intros k. rewrite lookup_empty.
    apply eq_None_not_Some. rewrite set_fields_is_Some.
    intros (fx & Hin & Hi & _). rewrite (H fx Hin) in Hi. done.
Qed.

Lemma classic_struct (st : store) data :
  (exists fs, struct_input st data fs) \/ (forall fs, ~ struct_input st data fs).
Proof.
  destruct data as [x|]; [|right; intros fs [?|(? & ? & _)]; done].
  destruct x; try (right; intros fs [?|(? & ? & _)]; done).
  - left. eexists. by left.
  - destruct target as [p|]; [|right; intros fs [?|(? & ? & _)]; done].
    destruct (st !! p) as [[y|]|] eqn:E.
    + destruct y; try (right; intros fs [?|(? & [= <-] & ?)]; [done|congruence]).
      left. eexists. right. eauto.
    + right. intros fs [?|(? & [= <-] & ?)]; [done|congruence].
    + right. intros fs [?|(? & [= <-] & ?)]; [done|congruence].
Qed.

(** The builder on every well-formed input: it returns the map at the first
    fresh address, leaves every object of the store as it was, and the
    result reads back, then and in every later store that keeps its
    objects, as the update document of the input's fields. *)
Lemma BuildUpdateSet_spec (st : store) data :
  valid_input st data ->
  exists st',
    BuildUpdateSet data st = Ok (Some (fresh (dom st))) st' /\
    st ⊆ st' /\
    forall st'', st' ⊆ st'' ->
      view st'' (Some (fresh (dom st))) = Some (update_doc (input_fields st data)) /\
      set_doc st'' (Some (fresh (dom st)))
      = (if decide (set_fields (input_fields st data) = ∅) then None
         else Some (set_fields (input_fields st data))).
Proof.
  intros Hv.
  destruct (classic_struct st data) as [[fs Hs]|Hns].
  - exists (built st fs). rewrite (struct_input_fields _ _ _ Hs).
    split; [by apply BuildUpdateSet_struct|].
    split; [apply built_subseteq|].
    intros st'' Hsub. split; [by apply view_built|by apply set_doc_built].
  - exists (<[fresh (dom st) := CM ∅]> st). rewrite (not_struct_fields _ _ Hns).
    split; [by apply BuildUpdateSet_other|].
    split; [apply insert_subseteq, new_M_fresh|].
    intros st'' Hsub.
    assert (H1 : st'' !! fresh (dom st) = Some (CM ∅)).
    { eapply lookup_weaken; [apply lookup_insert_eq|exact Hsub]. }
    unfold view, set_doc, read_M. rewrite H1.
    split; [by rewrite fmap_empty|done].
Qed.

Lemma set_entry_fields (st' : store) r fs k :
  set_doc st' r = (if decide (set_fields fs = ∅) then None else Some (set_fields fs)) ->
  set_entry st' r k = set_fields fs !! k.
Proof.
  intros H. unfold set_entry. rewrite H.
  case_decide as E; [by rewrite E, lookup_empty|done].
Qed.

Lemma included_true f x :
  included (f, x) = true <->
  IsExported f = true /\ has_tag f = true /\ omitted f x = false /\
  external_name f <> "_id".
Proof.
  unfold included. cbn [fst snd].
  rewrite !andb_true_iff, !negb_true_iff, String.eqb_neq. tauto.
Qed.

Lemma last_filter_at {A} (P : A -> Prop) `{!forall x, Decision (P x)}
    (l : list A) (i : nat) x :
  l !! i = Some x -> P x ->
  (forall (j : nat) y, (i < j)%nat -> l !! j = Some y -> ~ P y) ->
  last (filter P l) = Some x.
Proof.
  intros Hi HP Hlater.
  rewrite <- (take_drop_middle l i x Hi), filter_app, filter_cons_True by done.
  assert (filter P (drop (S i) l) = []) as ->.
  { destruct (filter P (drop (S i) l)) as [|y ys] eqn:E; [done|]. exfalso.
    assert (Hy : y ∈ filter P (drop (S i) l)) by (rewrite E; left).
    apply list_elem_of_filter in Hy as [HPy Hy].
    apply list_elem_of_lookup in Hy as [j Hj]. rewrite lookup_drop in Hj.
    eapply Hlater; [|exact Hj|exact HPy]. lia. }
  by rewrite last_snoc.
Qed.

(** ** Stamping an update *)

Lemma stamp_missing now l top (st : store) :
  st !! l = Some (CM top) ->
  mjoin (top !! "$set") = None ->
  exists st', stamped now (Some l) st st' /\
    forall A (k : Go A),
      (s <- map_index (Some l) "$set" ;;
       (match s with
        | None => m <- new_M ;; map_assign (Some l) "$set" (Some (VM m))
        | Some _ => ret tt
        end) ;;;
       s <- map_index (Some l) "$set" ;;
       m <- assert_M s ;;
       map_assign m "updated_at" (Some now) ;;; k) st = k st'.
Proof.
  intros Hl Hs.
  set (n := fresh (dom st)).
  assert (Hn : st !! n = None) by apply new_M_fresh.
  assert (Hne : l <> n) by congruence.
  set (top' := <["$set" := Some (VM (Some n))]> top).
  set (st' := <[n := CM {[ "updated_at" := Some now ]}]>
                (<[l := CM top']> (<[n := CM ∅]> st))).
  assert (Hl' : st' !! l = Some (CM top')).
  { subst st'. rewrite lookup_insert_ne by done. apply lookup_insert_eq. }
  assert (Hn' : st' !! n = Some (CM {[ "updated_at" := Some now ]})).
  { subst st'. apply lookup_insert_eq. }
  assert (Hdoc : set_doc st' (Some l) = Some {[ "updated_at" := Some now ]}).
  { unfold set_doc, read_M. rewrite Hl'. subst top'.
    rewrite lookup_insert_eq. by rewrite Hn'. }
  assert (Hold : set_doc st (Some l) = None).
  { unfold set_doc, read_M. rewrite Hl.
    destruct (top !! "$set") as [[?|]|]; done. }
  exists st'. split.
  - unfold stamped, set_entry. rewrite Hdoc, Hold.
    split; [apply lookup_singleton_eq|].
    split; [intros k Hk; by apply lookup_singleton_ne|].
    split.
    + intros top0 Hr _. unfold read_M in Hr. rewrite Hl in Hr.
      injection Hr as <-. exists n. split; [done|].
      unfold read_M. by rewrite Hl'.
    + unfold view, read_M. rewrite Hl, Hl'. intros [= He].
      apply fmap_empty_inv in He. subst top top'.
      rewrite insert_empty, map_fmap_singleton.
      unfold view_entry. by rewrite Hn'.
  - intros A k.
    erewrite bind_Ok; last first.
    { unfold map_index. rewrite Hl, Hs. reflexivity. }
    erewrite bind_Ok; last first.
    { unfold new_M. erewrite bind_Ok by reflexivity.
      apply map_assign_Ok. rewrite lookup_insert_ne by done. exact Hl. }
    erewrite (bind_Ok _ _ _ (Some (VM (Some n)))); last first.
    { unfold map_index. rewrite lookup_insert_eq, lookup_insert_eq. reflexivity. }
    cbn [assert_M]. rewrite bind_ret.
    erewrite bind_Ok; last first.
    { apply map_assign_Ok. rewrite lookup_insert_ne by done. apply lookup_insert_eq. }
    by rewrite insert_empty.
Qed.

Lemma mjoin_Some_lookup (top : gmap string any) k x :
  mjoin (top !! k) = Some x -> top !! k = Some (Some x).
Proof. destruct (top !! k) as [[?|]|]; intros [=]; by subst. Qed.

Lemma stamp_present now l top l2 F (st : store) :
  st !! l = Some (CM top) ->
  mjoin (top !! "$set") = Some (VM (Some l2)) ->
  st !! l2 = Some (CM F) ->
  exists st', stamped now (Some l) st st' /\
    forall A (k : Go A),
      (s <- map_index (Some l) "$set" ;;
       (match s with
        | None => m <- new_M ;; map_assign (Some l) "$set" (Some (VM m))
        | Some _ => ret tt
        end) ;;;
       s <- map_index (Some l) "$set" ;;
       m <- assert_M s ;;
       map_assign m "updated_at" (Some now) ;;; k) st = k st'.
Proof.
  intros Hl Hs H2.
  pose proof (mjoin_Some_lookup _ _ _ Hs) as Hs'.
  set (st' := <[l2 := CM (<["updated_at" := Some now]> F)]> st).
  assert (H2' : st' !! l2 = Some (CM (<["updated_at" := Some now]> F))).
  { subst st'. apply lookup_insert_eq. }
  assert (Hl' : exists top', st' !! l = Some (CM top') /\
                  top' !! "$set" = Some (Some (VM (Some l2)))).
  { destruct (decide (l = l2)) as [->|Hne].
    - exists (<["updated_at" := Some now]> F). split; [done|].
      rewrite lookup_insert_ne by done. congruence.
    - exists top. split; [|done]. subst st'. by rewrite lookup_insert_ne. }
  destruct Hl' as (top' & Hl' & Hs2).
  assert (Hdoc : set_doc st' (Some l) = Some (<["updated_at" := Some now]> F)).
  { unfold set_doc, read_M. rewrite Hl', Hs2. by rewrite H2'. }
  assert (Hold : set_doc st (Some l) = Some F).
  { unfold set_doc, read_M. rewrite Hl, Hs'. by rewrite H2. }
  exists st'. split.
  - unfold stamped, set_entry. rewrite Hdoc, Hold.
    split; [apply lookup_insert_eq|].
    split; [intros k Hk; by apply lookup_insert_ne|].
    split.
    + intros top0 Hr Hm. unfold read_M in Hr. rewrite Hl in Hr.
      injection Hr as <-. congruence.
    + unfold view, read_M. rewrite Hl. intros [= He].
      apply fmap_empty_inv in He. subst top. by rewrite lookup_empty in Hs'.
  - intros A k.
    erewrite (bind_Ok _ _ _ (Some (VM (Some l2)))); last first.
    { unfold map_index. by rewrite Hl, Hs. }
    rewrite bind_ret.
    erewrite (bind_Ok _ _ _ (Some (VM (Some l2)))); last first.
    { unfold map_index. by rewrite Hl, Hs. }
    cbn [assert_M]. rewrite bind_ret.
    erewrite bind_Ok; last first.
    { by apply map_assign_Ok. }
    done.
Qed.

Lemma stamp_updatable now update (st : store) :
  updatable st update ->
  exists st', stamped now update st st' /\
    forall A (k : Go A),
      (s <- map_index update "$set" ;;
       (match s with
        | None => m <- new_M ;; map_assign update "$set" (Some (VM m))
        | Some _ => ret tt
        end) ;;;
       s <- map_index update "$set" ;;
       m <- assert_M s ;;
       map_assign m "updated_at" (Some now) ;;; k) st = k st'.
Proof.
  intros (l & top & -> & Hl & [Hs|(l2 & F & Hs & H2)]).
  - by eapply stamp_missing.
  - by eapply stamp_present.
Qed.

(** ** The claims about [BuildUpdateSet] *)

Lemma struct_valid (st : store) data fs :
  struct_input st data fs -> valid_input st data.
Proof.
  intros [->|(p & -> & Hp)] q [=]. subst. eauto.
Qed.

Lemma BuildUpdateSet_entry (st : store) data :
  valid_input st data ->
  exists st',
    BuildUpdateSet data st = Ok (Some (fresh (dom st))) st' /\
    forall k, set_entry st' (Some (fresh (dom st))) k
              = set_fields (input_fields st data) !! k.
Proof.
  intros Hv. destruct (BuildUpdateSet_spec st data Hv) as (st' & Hrun & _ & Hread).
  exists st'. split; [done|]. intros k.
  apply set_entry_fields. by apply Hread.
Qed.

(** C1 (amended). For a struct passed directly or behind one pointer, the
    [$set] mapping has an entry under a name exactly when some exported field
    resolving to that name has a tag that is neither empty nor [-], is not
    omitted as an empty [omitempty] field, and does not resolve to [_id];
    such a field's own value is the entry unless a later such field has the
    same name, and in general the entry is the value of the last of them. *)
Theorem BuildUpdateSet_includes (st : store) data fs :
  struct_input st data fs ->
  exists r st',
    BuildUpdateSet data st = Ok r st' /\
    (forall k, is_Some (set_entry st' r k) <->
       exists f x, (f, x) ∈ fs /\ IsExported f = true /\ has_tag f = true /\
                   omitted f x = false /\ external_name f <> "_id" /\
                   external_name f = k) /\
    (forall (i : nat) f x,
       fs !! i = Some (f, x) ->
       IsExported f = true -> has_tag f = true -> omitted f x = false ->
       external_name f <> "_id" ->
       (forall (j : nat) fx, (i < j)%nat -> fs !! j = Some fx ->
          ~ contributes (external_name f) fx) ->
       set_entry st' r (external_name f) = Some (boxed x)) /\
    (forall k, set_entry st' r k
               = (fun fx => boxed fx.2) <$> last (filter (contributes k) fs)).
Proof.
  intros Hs.
  destruct (BuildUpdateSet_entry st data (struct_valid _ _ _ Hs)) as (st' & Hrun & He).
  rewrite (struct_input_fields _ _ _ Hs) in He.
  exists (Some (fresh (dom st))), st'. split; [done|].
  split; [|split].
  - intros k. rewrite He, set_fields_is_Some. split.
    + intros ([f x] & Hin & Hi & Hk). apply included_true in Hi.
      exists f, x. cbn in Hk. tauto.
    + intros (f & x & Hin & H1 & H2 & H3 & H4 & Hk).
      exists (f, x). split; [done|]. split; [|done].
      apply included_true. tauto.
  - intros i f x Hi H1 H2 H3 H4 Hlater.
    rewrite He, set_fields_lookup.
    rewrite (last_filter_at _ _ i (f, x) Hi); [done| |done].
    split; [|done]. apply included_true. tauto.
  - intros k. by rewrite He, set_fields_lookup.
Qed.

Lemma mixed_valid : valid_input mixed_store (Some (VPtr (Some 5%positive))).
Proof. intros p [= <-]. eexists. reflexivity. Defined.

(** C2. On every input the call returns, and the mapping under [$set] of
    the result, when there is one, has no entry under [_id]. *)
Theorem BuildUpdateSet_never_sets_id (st : store) data :
  valid_input st data ->
  exists r st',
    BuildUpdateSet data st = Ok r st' /\
    set_entry st' r "_id" = None /\
    (forall F, set_doc st' r = Some F -> F !! "_id" = None).
Proof.
  intros Hv. destruct (BuildUpdateSet_entry st data Hv) as (st' & Hrun & He).
  exists (Some (fresh (dom st))), st'. split; [done|].
  assert (H : set_entry st' (Some (fresh (dom st))) "_id" = None)
    by (rewrite He; apply set_fields_no_id).
  split; [done|].
  intros F HF. unfold set_entry in H. by rewrite HF in H.
Qed.

(** The shape of the result on every well-formed input. *)
Lemma BuildUpdateSet_shape (st : store) data :
  valid_input st data ->
  exists r st' top,
    BuildUpdateSet data st = Ok r st' /\
    read_M st' r = Some top /\
    dom top ⊆ {[ "$set" ]} /\
    ((exists fx, fx ∈ input_fields st data /\ included fx = true) ->
       exists F, view st' r = Some {[ "$set" := Doc F ]} /\ F <> ∅ /\
                 set_doc st' r = Some F /\ F = set_fields (input_fields st data)) /\
    ((forall fx, fx ∈ input_fields st data -> included fx = false) ->
       top = ∅ /\ view st' r = Some ∅).
Proof.
  intros Hv. destruct (BuildUpdateSet_spec st data Hv) as (st' & Hrun & _ & Hread).
  destruct (Hread st' (reflexivity _)) as [Hview Hdoc]. clear Hread.
  unfold update_doc in Hview.
  unfold view in Hview.
  destruct (read_M st' (Some (fresh (dom st)))) as [top|] eqn:Htop; [|done].
  exists (Some (fresh (dom st))), st', top. split; [done|]. split; [done|].
  injection Hview as Hview.
  assert (Hdom : dom top = dom (if decide (set_fields (input_fields st data) = ∅)
                                then (∅ : gmap string entry_view)
                                else {[ "$set" := Doc (set_fields (input_fields st data)) ]})).
  { rewrite <- Hview. by rewrite dom_fmap_L. }
  split; [|split].
  - rewrite Hdom. case_decide; [rewrite dom_empty_L|rewrite dom_singleton_L]; set_solver.
  - intros (fx & Hin & Hi).
    assert (E : set_fields (input_fields st data) <> ∅).
    { intros E. rewrite set_fields_empty_iff in E. rewrite (E fx Hin) in Hi. done. }
    rewrite decide_False in Hview by done. rewrite decide_False in Hdoc by done.
    exists (set_fields (input_fields st data)).
    unfold view. rewrite Htop, Hview. done.
  - intros Hnone. apply set_fields_empty_iff in Hnone.
    rewrite decide_True in Hview by done.
    apply fmap_empty_inv in Hview. subst top.
    split; [done|]. unfold view. rewrite Htop. by rewrite fmap_empty.
Qed.

(** C3. On every input the result has no key other than [$set]; when some
    field of the input is assigned, the result is [$set] over the non-empty
    field set, and when none is, the result is the empty mapping. *)
Theorem BuildUpdateSet_at_most_set_key (st : store) data :
  valid_input st data ->
  exists r st' top,
    BuildUpdateSet data st = Ok r st' /\
    read_M st' r = Some top /\
    dom top ⊆ {[ "$set" ]} /\
    ((exists fx, fx ∈ input_fields st data /\ included fx = true) ->
       exists F, view st' r = Some {[ "$set" := Doc F ]} /\ F <> ∅ /\
                 set_doc st' r = Some F /\ F = set_fields (input_fields st data)) /\
    ((forall fx, fx ∈ input_fields st data -> included fx = false) ->
       top = ∅ /\ view st' r = Some ∅).
Proof. apply BuildUpdateSet_shape. Qed.

(** A struct whose only field is an [omitempty] float holding a negative
    zero gives the empty map. *)
Example negative_zero_omitted (st : store) :
  exists r st',
    BuildUpdateSet
      (Some (VStruct [ (tagged "Score" "score,omitempty", VFloat 9223372036854775808) ])) st
    = Ok r st' /\
    read_M st' r = Some ∅.
Proof.
  destruct (BuildUpdateSet_shape st
              (Some (VStruct [ (tagged "Score" "score,omitempty",
                                VFloat 9223372036854775808) ])))
    as (r & st' & top & Hrun & Hr & _ & _ & Hnone); [by intros p [=]|].
  exists r, st'. split; [done|]. rewrite Hr. f_equal. apply Hnone.
  intros fx Hin. apply list_elem_of_singleton in Hin as ->. reflexivity.
Qed.

(** C4. On every input (an untyped nil, a typed nil pointer, a value of any
    kind) the call returns a map and does not panic; for nil, typed or
    untyped, the map is empty. *)
Theorem BuildUpdateSet_total (st : store) data :
  valid_input st data ->
  exists r st',
    BuildUpdateSet data st = Ok r st' /\
    is_Some (read_M st' r) /\
    (data = None \/ data = Some (VPtr None) -> read_M st' r = Some ∅).
Proof.
  intros Hv.
  destruct (BuildUpdateSet_shape st data Hv)
    as (r & st' & top & Hrun & Hr & _ & _ & Hnone).
  exists r, st'. split; [done|]. split; [by eauto|].
  intros Hnil. rewrite Hr. f_equal. apply Hnone.
  intros fx Hin. destruct Hnil as [-> | ->]; by apply not_elem_of_nil in Hin.
Qed.

(** C5. An input that after one dereference is not a struct yields the
    empty mapping, without a panic. *)
Theorem BuildUpdateSet_non_struct_empty (st : store) data :
  valid_input st data ->
  (forall fs, ~ struct_input st data fs) ->
  exists r st',
    BuildUpdateSet data st = Ok r st' /\
    read_M st' r = Some ∅ /\ view st' r = Some ∅.
Proof.
  intros Hv Hns.
  destruct (BuildUpdateSet_shape st data Hv)
    as (r & st' & top & Hrun & Hr & _ & _ & Hnone).
  exists r, st'. split; [done|].
  destruct Hnone as [-> Hview]; [|done].
  rewrite (not_struct_fields _ _ Hns). intros fx Hin. by apply not_elem_of_nil in Hin.
Qed.

Lemma included_suppressed f x : bson_tag f = "-" -> included (f, x) = false.
Proof.
  intros H. unfold included, has_tag. cbn [fst snd]. rewrite H.
  by rewrite !andb_false_r.
Qed.

Lemma set_fields_skip fs1 fx fs2 :
  included fx = false -> set_fields (fs1 ++ fx :: fs2) = set_fields (fs1 ++ fs2).
Proof.
  intros H. unfold set_fields. rewrite !foldl_app. cbn [foldl].
  unfold step at 2. by rewrite H.
Qed.

Lemma external_name_fallback f :
  primary_name f = EmptyString -> external_name f = ToLower (Name f).
Proof. intros H. unfold external_name. by rewrite H. Qed.

(** C6. For a struct passed directly or behind one pointer: an assigned
    field whose tag has an empty primary name is entered under its
    lower-cased identifier (with its own value, unless a later field is
    assigned under that name); and a field whose whole tag is [-] does not
    show in the output, whatever its value: the result is the one built from
    the struct without that field. *)
Theorem BuildUpdateSet_name_resolution (st : store) data fs :
  struct_input st data fs ->
  exists r st',
    BuildUpdateSet data st = Ok r st' /\
    (forall (i : nat) f x,
       fs !! i = Some (f, x) -> included (f, x) = true ->
       primary_name f = EmptyString ->
       external_name f = ToLower (Name f) /\
       is_Some (set_entry st' r (ToLower (Name f))) /\
       ((forall (j : nat) fx, (i < j)%nat -> fs !! j = Some fx ->
           ~ contributes (ToLower (Name f)) fx) ->
        set_entry st' r (ToLower (Name f)) = Some (boxed x))) /\
    (forall fs1 f x fs2,
       fs = (fs1 ++ (f, x) :: fs2)%list -> bson_tag f = "-" ->
       exists st2,
         BuildUpdateSet (Some (VStruct (fs1 ++ fs2))) st = Ok r st2 /\
         view st2 r = view st' r /\
         forall k, set_entry st2 r k = set_entry st' r k).
Proof.
  intros Hs. pose proof (struct_valid _ _ _ Hs) as Hv.
  destruct (BuildUpdateSet_spec st data Hv) as (st' & Hrun & _ & Hread).
  destruct (Hread st' (reflexivity _)) as [Hview Hdoc]. clear Hread.
  rewrite (struct_input_fields _ _ _ Hs) in Hview, Hdoc.
  exists (Some (fresh (dom st))), st'. split; [done|]. split.
  - intros i f x Hi Hinc Hp.
    pose proof (external_name_fallback f Hp) as Hn.
    split; [done|].
    rewrite (set_entry_fields _ _ fs _ Hdoc). split.
    + apply set_fields_is_Some. exists (f, x).
      split; [by eapply list_elem_of_lookup_2|]. by split.
    + intros Hlater. rewrite set_fields_lookup.
      rewrite (last_filter_at _ _ i (f, x) Hi); [done| |done]. by split.
  - intros fs1 f x fs2 -> Ht.
    assert (Hv2 : valid_input st (Some (VStruct (fs1 ++ fs2)))) by (by intros p [=]).
    destruct (BuildUpdateSet_spec st _ Hv2) as (st2 & Hrun2 & _ & Hread2).
    destruct (Hread2 st2 (reflexivity _)) as [Hview2 Hdoc2]. clear Hread2.
    cbn [input_fields] in Hview2, Hdoc2.
    exists st2. split; [done|].
    pose proof (set_fields_skip fs1 (f, x) fs2 (included_suppressed f x Ht)) as E.
    split.
    + rewrite Hview, Hview2. unfold update_doc. by rewrite E.
    + intros k. rewrite (set_entry_fields _ _ _ _ Hdoc2).
      rewrite (set_entry_fields _ _ _ _ Hdoc). by rewrite E.
Qed.

(** C7. The record with a set identity tagged [_id], the name [alice]
    tagged [username] and a bio tagged [profile.bio,omitempty] yields
    [$set] of the name alone when the bio is empty, and of the name and the
    bio when the bio is [hello]. *)
Theorem BuildUpdateSet_scenario (st : store) (identity : value) :
  (exists r st',
     BuildUpdateSet (Some (scenario_record identity EmptyString)) st = Ok r st' /\
     view st' r
     = Some {[ "$set" := Doc {[ "username" := Some (VString "alice") ]} ]}) /\
  (exists r st',
     BuildUpdateSet (Some (scenario_record identity "hello")) st = Ok r st' /\
     view st' r
     = Some {[ "$set" := Doc (<[ "username" := Some (VString "alice") ]>
                               {[ "profile.bio" := Some (VString "hello") ]}) ]}).
Proof.
  split.
  - assert (Hv : valid_input st (Some (scenario_record identity EmptyString)))
      by (by intros p [=]).
    destruct (BuildUpdateSet_spec st _ Hv) as (st' & Hrun & _ & Hread).
    destruct (Hread st' (reflexivity _)) as [Hview _].
    exists (Some (fresh (dom st))), st'. split; [done|].
    rewrite Hview. vm_compute. reflexivity.
  - assert (Hv : valid_input st (Some (scenario_record identity "hello")))
      by (by intros p [=]).
    destruct (BuildUpdateSet_spec st _ Hv) as (st' & Hrun & _ & Hread).
    destruct (Hread st' (reflexivity _)) as [Hview _].
    exists (Some (fresh (dom st))), st'. split; [done|].
    rewrite Hview. vm_compute. reflexivity.
Qed.

Lemma valid_input_weaken (st st' : store) data :
  st ⊆ st' -> valid_input st data -> valid_input st' data.
Proof.
  intros Hsub Hv p Hp. destruct (Hv p Hp) as [x Hx].
  exists x. by eapply lookup_weaken.
Qed.

Lemma input_fields_weaken (st st' : store) data :
  st ⊆ st' -> valid_input st data -> input_fields st' data = input_fields st data.
Proof.
  intros Hsub Hv. unfold input_fields.
  destruct data as [[]|]; try done. destruct target as [p|]; [|done].
  destruct (Hv p eq_refl) as [x Hx].
  by rewrite Hx, (lookup_weaken _ _ _ _ Hx Hsub).
Qed.

(** C8. Two calls in a row on the same input both return; the two results
    are structurally equal, the first still reads the same after the second
    call, and every object that was in the store before a call, the input
    among them, is unchanged after it. *)
Theorem BuildUpdateSet_pure (st : store) data :
  valid_input st data ->
  exists r1 st1 r2 st2 doc,
    BuildUpdateSet data st = Ok r1 st1 /\
    BuildUpdateSet data st1 = Ok r2 st2 /\
    view st1 r1 = Some doc /\
    view st2 r2 = Some doc /\
    view st2 r1 = Some doc /\
    (forall l c, st !! l = Some c -> st1 !! l = Some c) /\
    (forall l c, st1 !! l = Some c -> st2 !! l = Some c).
Proof.
  intros Hv.
  destruct (BuildUpdateSet_spec st data Hv) as (st1 & Hrun1 & Hsub1 & Hread1).
  pose proof (valid_input_weaken _ _ _ Hsub1 Hv) as Hv1.
  destruct (BuildUpdateSet_spec st1 data Hv1) as (st2 & Hrun2 & Hsub2 & Hread2).
  rewrite (input_fields_weaken _ _ _ Hsub1 Hv) in Hread2.
  exists (Some (fresh (dom st))), st1, (Some (fresh (dom st1))), st2,
    (update_doc (input_fields st data)).
  split; [done|]. split; [done|].
  split; [apply (Hread1 st1); reflexivity|].
  split; [apply (Hread2 st2); reflexivity|].
  split; [by apply (Hread1 st2)|].
  split; intros l c Hl; by eapply lookup_weaken.
Qed.


(** ** The claims about the repository's update methods *)

(** C10 (amended). When the update is a non-nil map whose [$set] entry is
    missing, nil or a non-nil [bson.M], both methods put the time under
    [updated_at] of the [$set] sub-document of the caller's own map, keep
    the other entries of that sub-document, make the [$set] key when it
    was missing, hand the driver the stamped store, and turn an empty
    update into a [$set] of the time alone. *)
Theorem Update_stamps_updated_at (r : Repository) now filter update (st : store) :
  updatable st update ->
  exists st',
    UpdateOne r now filter update st
    = Ok (wrap "failed to update document"
            (driver_UpdateOne (collection r) filter update st')) st' /\
    UpdateMany r now filter update st
    = Ok (wrap "failed to update documents"
            (driver_UpdateMany (collection r) filter update st')) st' /\
    set_entry st' update "updated_at" = Some (Some now) /\
    (forall k, k <> "updated_at" -> set_entry st' update k = set_entry st update k) /\
    (forall top, read_M st update = Some top -> mjoin (top !! "$set") = None ->
       exists l, st !! l = None /\
         read_M st' update = Some (<["$set" := Some (VM (Some l))]> top)) /\
    (view st update = Some ∅ ->
       view st' update = Some {[ "$set" := Doc {[ "updated_at" := Some now ]} ]}).
Proof.
  intros Hu. destruct (stamp_updatable now update st Hu) as (st' & Hst & Hrun).
  exists st'. split; [|split; [|exact Hst]].
  - unfold UpdateOne. by rewrite Hrun.
  - unfold UpdateMany. by rewrite Hrun.
Qed.

(** ** More of mongo/utils.go: membership, filters and merges *)

(** X1. [contains] answers true exactly for the items of the slice. *)
Theorem contains_elem_of (items : list string) (item : string) :
  contains items item = true <-> item ∈ items.
Proof.
  induction items as [|s rest IH]; cbn [contains].
  - split; [discriminate|]. intros H. by apply not_elem_of_nil in H.
  - destruct (String.eqb_spec s item) as [->|Hne].
    + split; [intros _; left|done].
    + rewrite IH. split; [by right|].
      intros H. apply elem_of_cons in H as [->|H]; done.
Qed.

Lemma for_each_assign (l : loc) es : forall (acc : gmap string any) (st : store),
  st !! l = Some (CM acc) ->
  for_each es (fun kv : string * any => map_assign (Some l) kv.1 kv.2) st
  = Ok tt (<[l := CM (foldl (fun a kv => <[kv.1 := kv.2]> a) acc es)]> st).
Proof.
  induction es as [|kv es IH]; intros acc st Hl; cbn [for_each foldl].
  - unfold ret. by rewrite insert_id.
  - rewrite (bind_Ok _ _ _ _ _ (map_assign_Ok _ _ _ kv.1 kv.2 Hl)).
    rewrite (IH (<[kv.1 := kv.2]> acc)) by apply lookup_insert_eq.
    by rewrite insert_insert_eq.
Qed.

Lemma for_each_assign_set (l : loc) es : forall (acc : gmap string any) (st : store),
  st !! l = Some (CM acc) ->
  for_each es (fun kv : string * any =>
                 match kv.2 with
                 | Some _ => map_assign (Some l) kv.1 kv.2
                 | None => ret tt
                 end) st
  = Ok tt (<[l := CM (foldl (fun a kv => <[kv.1 := kv.2]> a) acc
                        (filter (fun kv => is_Some kv.2) es))]> st).
Proof.
  induction es as [|[k [v|]] es IH]; intros acc st Hl; cbn [for_each foldl snd fst].
  - unfold ret. by rewrite insert_id.
  - rewrite filter_cons_True by (by eexists). cbn [foldl fst snd].
    rewrite (bind_Ok _ _ _ _ _ (map_assign_Ok _ _ _ k (Some v) Hl)).
    rewrite (IH (<[k := Some v]> acc)) by apply lookup_insert_eq.
    by rewrite insert_insert_eq.
  - rewrite filter_cons_False by (by intros [? ?]). rewrite bind_ret. by apply IH.
Qed.

Lemma foldl_insert_union {V} (es : list (string * V)) : forall acc : gmap string V,
  NoDup es.*1 ->
  foldl (fun a kv => <[kv.1 := kv.2]> a) acc es = list_to_map es ∪ acc.
Proof.
  induction es as [|[k v] es IH]; intros acc Hnd; cbn [foldl fst snd].
  - by rewrite list_to_map_nil, (left_id_L ∅ (∪)).
  - rewrite fmap_cons in Hnd. apply NoDup_cons in Hnd as [Hk Hnd].
    rewrite (IH _ Hnd), list_to_map_cons.
    rewrite <- insert_union_l.
    by rewrite <- insert_union_r by (by apply not_elem_of_list_to_map_1).
Qed.

Lemma visit_NoDup {V} (visit : gmap string V -> list (string * V)) mm :
  visit mm ≡ₚ map_to_list mm -> NoDup (visit mm).*1.
Proof.
  intros Hp. rewrite Hp. apply NoDup_fst_map_to_list.
Qed.

Lemma visit_to_map {V} (visit : gmap string V -> list (string * V)) mm :
  visit mm ≡ₚ map_to_list mm -> list_to_map (visit mm) = mm.
Proof.
  intros Hp. rewrite (list_to_map_proper _ _ (visit_NoDup _ _ Hp) Hp).
  apply list_to_map_to_list.
Qed.

Lemma visit_filter_to_map (visit : gmap string any -> list (string * any)) mm :
  visit mm ≡ₚ map_to_list mm ->
  NoDup (filter (fun kv : string * any => is_Some kv.2) (visit mm)).*1 /\
  (list_to_map (filter (fun kv : string * any => is_Some kv.2) (visit mm)) : gmap string any)
  = filter (fun kv : string * any => is_Some kv.2) mm.
Proof.
  intros Hp.
  assert (Hnd : NoDup (filter (fun kv : string * any => is_Some kv.2) (visit mm)).*1).
  { eapply sublist_NoDup; [exact (visit_NoDup _ _ Hp)|].
    apply fmap_sublist, sublist_filter. }
  split; [done|].
  rewrite map_filter_alt. apply list_to_map_proper; [done|]. by rewrite Hp.
Qed.

(** X2. [BuildFilter] returns a new map holding exactly the entries of
    [conditions] whose value is not nil, whatever order the map is ranged
    over in; the conditions, like every other object, stay as they were; a
    nil map of conditions gives an empty, non-nil filter. *)
Theorem BuildFilter_keeps_set_entries visit (conditions : bsonM) (st : store) :
  visits_all visit ->
  conditions = None \/ is_Some (read_M st conditions) ->
  exists f st',
    BuildFilter visit conditions st = Ok (Some f) st' /\
    st !! f = None /\
    (forall l c, st !! l = Some c -> st' !! l = Some c) /\
    exists F,
      read_M st' (Some f) = Some F /\
      (conditions = None -> F = ∅) /\
      (forall mm, read_M st conditions = Some mm ->
         forall k v, F !! k = Some v <-> mm !! k = Some v /\ v <> None).
Proof.
  intros Hvis Hc. unfold BuildFilter, new_M. unfold bind at 1.
  set (f := fresh (dom st)).
  assert (Hf : st !! f = None) by apply new_M_fresh.
  assert (Hsub : st ⊆ <[f := CM ∅]> st) by (by apply insert_subseteq).
  destruct conditions as [c|].
  - destruct Hc as [?|[mm Hmm]]; [done|].
    unfold read_M in Hmm. destruct (st !! c) as [[?|mm']|] eqn:Ec; try done.
    injection Hmm as ->.
    assert (Hcf : c <> f) by congruence.
    destruct (visit_filter_to_map visit mm (Hvis mm)) as [Hnd Hmap].
    exists f, (<[f := CM (filter (fun kv : string * any => is_Some kv.2) mm)]> st).
    split.
    + erewrite bind_Ok; last first.
      { unfold range_M. rewrite lookup_insert_ne by done. rewrite Ec.
        apply (for_each_assign_set f _ ∅). apply lookup_insert_eq. }
      rewrite insert_insert_eq, (foldl_insert_union _ _ Hnd), Hmap.
      by rewrite (right_id_L ∅ (∪)).
    + split; [done|]. split.
      { intros l x Hl. rewrite lookup_insert_ne by congruence. done. }
      eexists. split; [unfold read_M; by rewrite lookup_insert_eq|].
      split; [done|]. intros mm0 Hr k v.
      unfold read_M in Hr. rewrite Ec in Hr. injection Hr as <-.
      rewrite map_lookup_filter_Some. cbn [snd].
      rewrite <- not_eq_None_Some. done.
  - exists f, (<[f := CM ∅]> st). split; [reflexivity|].
    split; [done|]. split.
    { intros l x Hl. by eapply lookup_weaken. }
    exists ∅. split; [unfold read_M; by rewrite lookup_insert_eq|].
    split; [done|]. intros mm Hr. discriminate Hr.
Qed.

Lemma visits_map_to_list {V} : visits_all (@map_to_list string V (gmap string V) _).
Proof. intros mm. reflexivity. Defined.

Lemma range_assign visit (doc : bsonM) (l : loc) (base : store) c acc :
  visits_all visit ->
  base !! l = None ->
  (doc = None /\ c = None) \/
  (exists d mm, doc = Some d /\ base !! d = Some (CM mm) /\ c = Some mm) ->
  range_M visit doc (fun kv : string * any => map_assign (Some l) kv.1 kv.2)
    (<[l := CM acc]> base)
  = Ok tt (<[l := CM (default ∅ c ∪ acc)]> base).
Proof.
  intros Hvis Hl [[-> ->]|(d & mm & -> & Hd & ->)]; unfold range_M.
  - cbn [default]. by rewrite (left_id_L ∅ (∪)).
  - assert (d <> l) by congruence.
    rewrite lookup_insert_ne by done. rewrite Hd.
    rewrite (for_each_assign l _ acc) by apply lookup_insert_eq.
    rewrite insert_insert_eq.
    rewrite (foldl_insert_union _ _ (visit_NoDup _ _ (Hvis mm))).
    by rewrite (visit_to_map _ _ (Hvis mm)).
Qed.

Lemma merge_loop (visit : nat -> gmap string any -> list (string * any))
    (l : loc) (base : store) idocs cs :
  (forall i, visits_all (visit i)) ->
  base !! l = None ->
  Forall2 (fun (idoc : nat * bsonM) (c : option (gmap string any)) =>
             (idoc.2 = None /\ c = None) \/
             (exists d mm, idoc.2 = Some d /\ base !! d = Some (CM mm) /\ c = Some mm))
          idocs cs ->
  forall acc,
    for_each idocs
      (fun idoc : nat * bsonM =>
         range_M (visit idoc.1) idoc.2
           (fun kv : string * any => map_assign (Some l) kv.1 kv.2))
      (<[l := CM acc]> base)
    = Ok tt (<[l := CM (foldl (fun a c => default ∅ c ∪ a) acc cs)]> base).
Proof.
  intros Hvis Hl H. induction H as [|idoc c idocs cs Hd _ IH]; intros acc;
    cbn [for_each foldl].
  - reflexivity.
  - rewrite (bind_Ok _ _ _ _ _ (range_assign _ _ _ _ _ acc (Hvis idoc.1) Hl Hd)).
    apply IH.
Qed.

Lemma foldl_union_lookup (cs : list (option (gmap string any))) k :
  forall acc : gmap string any,
    foldl (fun a c => default ∅ c ∪ a) acc cs !! k
    = match last (filter (fun mm : gmap string any => is_Some (mm !! k)) (omap id cs)) with
      | Some mm => mm !! k
      | None => acc !! k
      end.
Proof.
  induction cs as [|c cs IH]; intros acc; [done|].
  cbn [foldl]. rewrite IH. destruct c as [mm|]; cbn [default].
  - assert (omap id (Some mm :: cs) = mm :: omap id cs) as -> by reflexivity.
    rewrite filter_cons.
    destruct (decide (is_Some (mm !! k))) as [[v Hv]|Hn].
    + rewrite last_cons.
      destruct (last (filter _ (omap id cs))); [done|].
      rewrite lookup_union. unfold id. rewrite Hv. by destruct (acc !! k).
    + destruct (last (filter _ (omap id cs))); [done|].
      apply eq_None_not_Some in Hn. rewrite lookup_union. unfold id. rewrite Hn.
      by destruct (acc !! k).
  - assert (omap id (@None (gmap string any) :: cs) = omap id cs) as -> by reflexivity.
    destruct (last (filter _ (omap id cs))); [done|].
    by rewrite (left_id_L ∅ (∪)).
Qed.

Lemma docs_contents (st : store) (docs : list bsonM) :
  forall mk : nat -> bsonM -> nat * bsonM,
    (forall i d, (mk i d).2 = d) ->
    Forall (fun d => d = None \/ is_Some (read_M st d)) docs ->
    Forall2 (fun (idoc : nat * bsonM) (c : option (gmap string any)) =>
               (idoc.2 = None /\ c = None) \/
               (exists d mm, idoc.2 = Some d /\ st !! d = Some (CM mm) /\ c = Some mm))
            (imap mk docs) (read_M st <$> docs).
Proof.
  induction docs as [|d ds IH]; intros mk Hmk Hdocs; [constructor|].
  apply Forall_cons in Hdocs as [Hd Hds].
  cbn [imap fmap list_fmap]. constructor.
  - rewrite Hmk. destruct Hd as [->|[mm Hmm]]; [by left|].
    destruct d as [l|]; [|done]. right. exists l, mm.
    unfold read_M in *. destruct (st !! l) as [[?|?]|]; try done.
    by injection Hmm as ->.
  - apply IH; [|done]. intros i d'. apply Hmk.
Qed.

(** X3. [MergeBsonM] returns a new map in which every key holds the value
    of the last document that has the key, whatever order each document is
    ranged over in; nil documents add nothing, no document is changed, and
    without documents the result is empty. *)
Theorem MergeBsonM_last_wins visit (docs : list bsonM) (st : store) :
  (forall i, visits_all (visit i)) ->
  Forall (fun d => d = None \/ is_Some (read_M st d)) docs ->
  exists r st' R,
    MergeBsonM visit docs st = Ok (Some r) st' /\
    st !! r = None /\
    (forall l c, st !! l = Some c -> st' !! l = Some c) /\
    read_M st' (Some r) = Some R /\
    (forall k,
       R !! k = last (filter (fun mm : gmap string any => is_Some (mm !! k))
                        (omap (read_M st) docs)) ≫= (fun mm => mm !! k)) /\
    (docs = [] -> R = ∅).
Proof.
  intros Hvis Hdocs. unfold MergeBsonM, new_M. unfold bind at 1.
  set (r := fresh (dom st)).
  assert (Hr : st !! r = None) by apply new_M_fresh.
  set (cs := read_M st <$> docs).
  assert (H2 : Forall2 (fun (idoc : nat * bsonM) (c : option (gmap string any)) =>
             (idoc.2 = None /\ c = None) \/
             (exists d mm, idoc.2 = Some d /\ st !! d = Some (CM mm) /\ c = Some mm))
          (imap (fun i doc => (i, doc)) docs) cs).
  { subst cs. apply docs_contents; [done|exact Hdocs]. }
  exists r, (<[r := CM (foldl (fun a c => default ∅ c ∪ a) ∅ cs)]> st),
    (foldl (fun a c => default ∅ c ∪ a) ∅ cs).
  split.
  { rewrite (bind_Ok _ _ _ _ _ (merge_loop visit r st _ cs Hvis Hr H2 ∅)). reflexivity. }
  split; [done|]. split.
  { intros l c Hl. rewrite lookup_insert_ne by congruence. done. }
  split; [unfold read_M; by rewrite lookup_insert_eq|].
  split.
  - intros k. rewrite foldl_union_lookup, lookup_empty.
    assert (omap id cs = omap (read_M st) docs) as ->.
    { subst cs. clear. induction docs as [|d ds IH]; [done|].
      cbn. rewrite IH. by destruct (read_M st d). }
    by destruct (last _).
  - intros ->. reflexivity.
Qed.

(** ** Sort documents and index keys built from Go maps *)

Lemma foldl_append {A B} (g : A -> B) (es : list A) : forall init : slice B,
  foldl (fun s x => append s (g x)) init es
  = match es with
    | [] => init
    | _ => Some (default [] init ++ (g <$> es))%list
    end.
Proof.
  induction es as [|x es IH]; intros init; [done|].
  cbn [foldl]. rewrite IH. unfold append. destruct es as [|y es].
  - done.
  - simpl. by rewrite <- app_assoc.
Qed.

Lemma two_orders {V} (m : gmap string V) :
  (2 <= size m)%nat -> map_to_list m <> reverse (map_to_list m).
Proof.
  intros Hsz E.
  pose proof (NoDup_fst_map_to_list m) as Hnd.
  rewrite <- length_map_to_list in Hsz.
  destruct (map_to_list m) as [|a [|b es]]; cbn in Hsz; try lia.
  rewrite !reverse_cons in E.
  assert (Hl : last (a :: b :: es) = Some a).
  { rewrite E at 1. apply last_snoc. }
  apply NoDup_fmap_1 in Hnd.
  apply NoDup_cons in Hnd as [Ha _]. apply Ha.
  change (a :: b :: es) with ([a] ++ b :: es)%list in Hl.
  rewrite last_app_cons in Hl. by apply last_Some_elem_of in Hl.
Qed.

Lemma boxed_orders_inj (l1 l2 : list (string * Z)) :
  (fun fo : string * Z => (fo.1, Some (VInt fo.2))) <$> l1
  = (fun fo : string * Z => (fo.1, Some (VInt fo.2))) <$> l2 ->
  l1 = l2.
Proof.
  revert l2. induction l1 as [|[k n] l1 IH]; intros [|[k' n'] l2] H; try done.
  rewrite !fmap_cons in H. injection H as -> -> H. f_equal. by apply IH.
Qed.

(** X4. [BuildSort] returns nil for a nil or empty map; otherwise its
    document has every field of the map once with its order, in the order
    the map happens to be ranged over in. *)
Theorem BuildSort_entries visit (sorts : option (gmap string Z)) :
  visits_all visit ->
  match sorts with
  | None => BuildSort visit sorts = None
  | Some m =>
      if decide (m = ∅) then BuildSort visit sorts = None
      else exists es,
             BuildSort visit sorts = Some es /\
             es = (fun fo : string * Z => (fo.1, Some (VInt fo.2))) <$> visit m /\
             es ≡ₚ (fun fo : string * Z => (fo.1, Some (VInt fo.2))) <$> map_to_list m /\
             NoDup es.*1 /\ List.length es = size m
  end.
Proof.
  intros Hvis. destruct sorts as [m|]; [|reflexivity].
  unfold BuildSort. rewrite foldl_append.
  pose proof (Hvis m) as Hp.
  case_decide as E.
  - subst m. rewrite map_to_list_empty in Hp. apply Permutation_nil_r in Hp.
    by rewrite Hp.
  - destruct (visit m) as [|e es] eqn:Ev.
    { symmetry in Hp. apply Permutation_nil_r in Hp.
      apply map_to_list_empty_iff in Hp. done. }
    eexists. split; [reflexivity|]. cbn [default app].
    split; [done|]. split; [by rewrite Hp|].
    split.
    + rewrite <- list_fmap_compose.
      change (NoDup ((e :: es).*1)). rewrite Hp. apply NoDup_fst_map_to_list.
    + rewrite length_fmap, Hp. apply length_map_to_list.
Qed.

(** X5. With two or more sort fields the document [BuildSort] returns is
    not fixed by its argument: two orders Go may range over the map in give
    two different documents. *)
Theorem BuildSort_order_open (m : gmap string Z) :
  (2 <= size m)%nat ->
  exists visit1 visit2,
    visits_all visit1 /\ visits_all visit2 /\
    BuildSort visit1 (Some m) <> BuildSort visit2 (Some m).
Proof.
  intros Hsz.
  exists map_to_list, (fun mm => reverse (map_to_list mm)).
  split; [exact visits_map_to_list|].
  split; [intros mm; apply reverse_Permutation|].
  unfold BuildSort. rewrite !foldl_append.
  pose proof (two_orders m Hsz) as Hne.
  destruct (map_to_list m) as [|a es] eqn:E1.
  { rewrite <- length_map_to_list, E1 in Hsz. cbn in Hsz. lia. }
  destruct (reverse (a :: es)) as [|b bs] eqn:E2.
  { apply (f_equal List.length) in E2. rewrite length_reverse in E2. done. }
  intros Heq. apply (inj Some) in Heq. apply Hne.
  by apply boxed_orders_inj.
Qed.

(** X6. [CreateCompoundIndex] asks the driver for an index whose keys are
    the fields of the map, each once with its order, in the order the map
    happens to be ranged over in; with two or more fields another order Go
    may take asks for different keys. *)
Theorem CreateCompoundIndex_keys_order visit createOne
    (fields : gmap string Z) (opts : any) (st : store) :
  visits_all visit ->
  exists keys,
    CreateCompoundIndex visit createOne (Some fields) opts st
    = CreateIndex createOne (Some keys) opts st /\
    keys ≡ₚ (fun fo : string * Z => (fo.1, Some (VInt fo.2))) <$> map_to_list fields /\
    ((2 <= size fields)%nat ->
     exists visit' keys',
       visits_all visit' /\
       CreateCompoundIndex visit' createOne (Some fields) opts st
       = CreateIndex createOne (Some keys') opts st /\
       keys' <> keys).
Proof.
  intros Hvis. unfold CreateCompoundIndex.
  assert (Hk : forall v : gmap string Z -> list (string * Z),
    CreateCompoundIndex_keys v (Some fields)
    = Some ((fun fo : string * Z => (fo.1, Some (VInt fo.2))) <$> v fields)).
  { intros v. unfold CreateCompoundIndex_keys. rewrite foldl_append.
    by destruct (v fields). }
  eexists. split; [by rewrite Hk|]. split; [by rewrite (Hvis fields)|].
  intros Hsz. pose proof (two_orders fields Hsz) as Hne.
  destruct (decide (visit fields = map_to_list fields)) as [E|E].
  - exists (fun mm => reverse (map_to_list mm)). eexists.
    split; [intros mm; apply reverse_Permutation|].
    split; [by rewrite Hk|].
    intros Heq. apply boxed_orders_inj in Heq. rewrite E in Heq. by apply Hne.
  - exists map_to_list. eexists.
    split; [exact visits_map_to_list|]. split; [by rewrite Hk|].
    intros Heq. apply boxed_orders_inj in Heq. by apply E.
Qed.

(** ** ObjectID conversions *)

(** X7. [ObjectIDsFromStrings] either returns the ids of all the strings,
    in order (nil when there are no strings) and no error, or it returns nil
    and an error that names the first string that is not a valid id; the
    driver's own error is dropped. *)
Theorem ObjectIDsFromStrings_outcome (P : primitive) (strs : list string) :
  match ObjectIDsFromStrings P strs with
  | (ids, None) =>
      Forall2 (fun str id => ObjectIDFromHex P str = inl id) strs (default [] ids) /\
      (ids = None <-> strs = [])
  | (ids, Some err) =>
      ids = None /\
      exists pre str post e,
        strs = (pre ++ str :: post)%list /\
        Forall (fun s => exists id, ObjectIDFromHex P s = inl id) pre /\
        ObjectIDFromHex P str = inr e /\
        err = "invalid ObjectID: " ++ str
  end.
Proof.
  unfold ObjectIDsFromStrings.
  assert (H : forall strs (done : list string) (acc : slice ObjectID),
    Forall2 (fun str id => ObjectIDFromHex P str = inl id) done (default [] acc) ->
    (acc = None <-> done = []) ->
    match ObjectIDsFromStrings_from P acc strs with
    | (ids, None) =>
        Forall2 (fun str id => ObjectIDFromHex P str = inl id)
                (done ++ strs)%list (default [] ids) /\
        (ids = None <-> (done ++ strs)%list = [])
    | (ids, Some err) =>
        ids = None /\
        exists pre str post e,
          (done ++ strs)%list = (pre ++ str :: post)%list /\
          Forall (fun s => exists id, ObjectIDFromHex P s = inl id) pre /\
          ObjectIDFromHex P str = inr e /\
          err = "invalid ObjectID: " ++ str
    end).
  { clear strs. induction strs as [|str rest IH]; intros done acc Hacc Hnil;
      cbn [ObjectIDsFromStrings_from].
    - by rewrite app_nil_r.
    - unfold ObjectIDFromString.
      destruct (ObjectIDFromHex P str) as [id|e] eqn:E.
      + specialize (IH (done ++ [str])%list (append acc id)).
        rewrite <- app_assoc in IH. apply IH.
        * unfold append. simpl. by apply Forall2_app; [|repeat constructor].
        * unfold append. split; [done|]. intros Hd. by destruct done.
      + split; [done|]. exists done, str, rest, e.
        split; [done|]. split; [|done].
        apply Forall_forall. intros s Hs.
        apply list_elem_of_lookup in Hs as [i Hi].
        destruct (Forall2_lookup_l _ _ _ _ _ Hacc Hi) as (id & _ & Hid). eauto. }
  apply (H strs [] None); [constructor|done].
Qed.

(** X8. Turning ids into strings and the strings back into ids gives the
    ids again, as long as the driver reads back the string it writes for
    each of them; an empty list comes back as nil. *)
Theorem ObjectIDs_round_trip (P : primitive) (ids : list ObjectID) :
  Forall (fun id => ObjectIDFromHex P (Hex P id) = inl id) ids ->
  Forall2 (fun id str => str = StringFromObjectID P id)
          ids (default [] (StringsFromObjectIDs P ids)) /\
  (StringsFromObjectIDs P ids = None <-> ids = []) /\
  ObjectIDsFromStrings P (default [] (StringsFromObjectIDs P ids))
  = (match ids with [] => None | _ => Some ids end, None).
Proof.
  intros Hrt. unfold StringsFromObjectIDs. rewrite foldl_append.
  assert (Hs : default [] (match ids with
                           | [] => None
                           | _ => Some (default [] None ++ (Hex P <$> ids))%list
                           end) = Hex P <$> ids) by (by destruct ids).
  rewrite Hs. split; [|split].
  - apply Forall2_fmap_r, Forall_Forall2_diag, Forall_forall. done.
  - by destruct ids.
  - unfold ObjectIDsFromStrings.
    assert (H : forall (acc : slice ObjectID),
      Forall (fun id => ObjectIDFromHex P (Hex P id) = inl id) ids ->
      ObjectIDsFromStrings_from P acc (Hex P <$> ids)
      = (match ids with [] => acc | _ => Some (default [] acc ++ ids)%list end, None)).
    { clear. induction ids as [|id ids IH]; intros acc Hrt; [done|].
      apply Forall_cons in Hrt as [Hid Hrt].
      rewrite fmap_cons. cbn [ObjectIDsFromStrings_from].
      unfold ObjectIDFromString. rewrite Hid, (IH _ Hrt).
      unfold append. destruct ids; [done|]. simpl. by rewrite <- app_assoc. }
    rewrite (H None Hrt). by destruct ids.
Qed.

(** ** Pagination *)

Lemma wrap64_small z : - 2 ^ 63 <= z < 2 ^ 63 -> wrap64 z = z.
Proof.
  intros H. unfold wrap64. int64_bounds. rewrite Z.mod_small by lia. lia.
Qed.

Lemma wrap64_plus_l x y : wrap64 (wrap64 x + y) = wrap64 (x + y).
Proof.
  unfold wrap64. f_equal.
  replace ((x + 2 ^ 63) mod 2 ^ 64 - 2 ^ 63 + y + 2 ^ 63)
    with ((x + 2 ^ 63) mod 2 ^ 64 + y) by lia.
  rewrite Zplus_mod_idemp_l. f_equal. lia.
Qed.

Lemma pages_cover total pageSize :
  0 <= total -> 0 < pageSize ->
  ((total + pageSize - 1) / pageSize - 1) * pageSize < total
  <= (total + pageSize - 1) / pageSize * pageSize.
Proof.
  intros Ht Hp.
  pose proof (Z.div_mod (total + pageSize - 1) pageSize ltac:(lia)) as Hdm.
  pose proof (Z.mod_pos_bound (total + pageSize - 1) pageSize Hp) as Hm.
  nia.
Qed.

(** X9. With a page from 1 on and a positive page size (and no overflow of
    [int64]), [FindWithPagination] asks the driver to skip
    [(page - 1) * pageSize] documents and, when the driver finds, decodes and
    counts without error, reports the least number of pages that holds the
    counted total: [(TotalPage - 1) * pageSize < Total <= TotalPage * pageSize]. *)
Theorem FindWithPagination_pages (q : mongo_Queries) filter page pageSize results
    (st : store) :
  1 <= page < 2 ^ 63 -> 0 < pageSize -> (page - 1) * pageSize < 2 ^ 63 ->
  let found := driver_Find q filter ((page - 1) * pageSize) pageSize st in
  let decoded := cursor_All q found.1 results st in
  let counted := driver_CountDocuments q filter decoded.1 in
  found.2 = None -> decoded.2 = None -> counted.2 = None ->
  0 <= counted.1 -> counted.1 + pageSize - 1 < 2 ^ 63 ->
  exists pages,
    FindWithPagination q filter page pageSize results st
    = Ok (Some (mkPaginationResult page pageSize counted.1 pages), None) decoded.1 /\
    (pages - 1) * pageSize < counted.1 <= pages * pageSize.
Proof.
  intros Hpage Hps Hskip found decoded counted Hf Hd Hc Htotal Hsum.
  int64_bounds.
  exists ((counted.1 + pageSize - 1) / pageSize).
  split; [|by apply pages_cover].
  unfold FindWithPagination, mul64, sub64, add64.
  rewrite (wrap64_small (page - 1)) by lia.
  rewrite (wrap64_small ((page - 1) * pageSize)) by nia.
  unfold call at 1. unfold bind at 1. fold found. rewrite Hf.
  unfold bind at 1. fold decoded. rewrite Hd.
  unfold call at 1. unfold bind at 1. fold counted. rewrite Hc.
  replace (wrap64 (counted.1 + pageSize) - 1)
    with (wrap64 (counted.1 + pageSize) + -1) by lia.
  rewrite wrap64_plus_l.
  rewrite (wrap64_small (counted.1 + pageSize + -1)) by lia.
  replace (counted.1 + pageSize + -1) with (counted.1 + pageSize - 1) by lia.
  unfold div64. destruct (Z.eqb_spec pageSize 0) as [?|_]; [lia|].
  rewrite bind_ret. rewrite Z.quot_div_nonneg by lia.
  rewrite wrap64_small; [reflexivity|].
  pose proof (pages_cover counted.1 pageSize Htotal Hps). nia.
Qed.


(** ** Looking an index up by name *)

Lemma IndexExists_loop_spec (name : string) (indexes : list bsonM) (st : store) :
  Forall (fun ix => ix = None \/ is_Some (read_M st ix)) indexes ->
  exists b,
    IndexExists_loop indexes name st = Ok b st /\
    (b = true <->
     exists ix mm, ix ∈ indexes /\ read_M st ix = Some mm /\
                   mm !! "name" = Some (Some (VString name))).
Proof.
  induction indexes as [|ix rest IH]; intros Hall.
  - exists false. split; [done|]. split; [done|].
    intros (ix & mm & Hin & _). by apply not_elem_of_nil in Hin.
  - apply Forall_cons in Hall as [Hix Hrest].
    destruct (IH Hrest) as (b & Hrun & Hb). clear IH.
    assert (Hskip : forall x : any,
      map_index ix "name" st = Ok x st ->
      (forall mm, read_M st ix = Some mm ->
         mm !! "name" <> Some (Some (VString name))) ->
      (match x with
       | Some (VString indexName) =>
           if String.eqb indexName name then ret true
           else IndexExists_loop rest name
       | _ => IndexExists_loop rest name
       end) st = IndexExists_loop rest name st ->
      exists b0,
        IndexExists_loop (ix :: rest) name st = Ok b0 st /\
        (b0 = true <->
         exists ix0 mm, ix0 ∈ ix :: rest /\ read_M st ix0 = Some mm /\
                        mm !! "name" = Some (Some (VString name)))).
    { intros x Hx Hno Hsame. exists b. cbn [IndexExists_loop].
      rewrite (bind_Ok _ _ _ _ _ Hx), Hsame. split; [done|].
      rewrite Hb. split.
      - intros (ix0 & mm & Hin & Hr & Hn). exists ix0, mm. split; [by right|done].
      - intros (ix0 & mm & Hin & Hr & Hn).
        apply elem_of_cons in Hin as [->|Hin]; [by destruct (Hno mm Hr)|].
        by exists ix0, mm. }
    destruct Hix as [->|[mm Hmm]].
    { apply (Hskip None); [done| |done]. intros mm Hr. discriminate Hr. }
    destruct ix as [l|]; [|done].
    assert (Hl : st !! l = Some (CM mm)).
    { unfold read_M in Hmm. destruct (st !! l) as [[?|?]|]; try done.
      by injection Hmm as ->. }
    assert (Hx : map_index (Some l) "name" st = Ok (mjoin (mm !! "name")) st).
    { unfold map_index. by rewrite Hl. }
    destruct (mm !! "name") as [[x|]|] eqn:En.
    + destruct x; try (apply (Hskip _ Hx); [|done]; intros mm0 Hr;
                       rewrite Hmm in Hr; injection Hr as <-; rewrite En;
                       intros [=]).
      destruct (String.eqb_spec s name) as [->|Hne].
      * exists true. cbn [IndexExists_loop]. rewrite (bind_Ok _ _ _ _ _ Hx).
        cbn. rewrite String.eqb_refl. split; [done|]. split; [|done].
        intros _. exists (Some l), mm. split; [left|done].
      * apply (Hskip _ Hx).
        { intros mm0 Hr. rewrite Hmm in Hr. injection Hr as <-. rewrite En.
          intros [=]. done. }
        cbn. by rewrite (proj2 (String.eqb_neq s name) Hne).
    + apply (Hskip _ Hx); [|done]. intros mm0 Hr.
      rewrite Hmm in Hr. injection Hr as <-. by rewrite En.
    + apply (Hskip _ Hx); [|done]. intros mm0 Hr.
      rewrite Hmm in Hr. injection Hr as <-. by rewrite En.
Qed.

(** X11. When the driver lists and decodes the indexes without error,
    [IndexExists] answers true exactly when one of the decoded documents has
    the string [name] under the key [name]; documents that are nil, have no
    name or have a name that is not a string are passed over without a
    panic, and the store is left as the decoding left it. *)
Theorem IndexExists_by_name (iv : mongo_IndexView) (name : string) (st : store) :
  let listed := driver_List iv st in
  let decoded := cursor_All_M iv listed.1 st in
  listed.2 = None -> decoded.2 = None ->
  Forall (fun ix => ix = None \/ is_Some (read_M decoded.1.2 ix))
         (default [] decoded.1.1) ->
  exists b,
    IndexExists iv name st = Ok (b, None) decoded.1.2 /\
    (b = true <->
     exists ix mm, ix ∈ default [] decoded.1.1 /\
                   read_M decoded.1.2 ix = Some mm /\
                   mm !! "name" = Some (Some (VString name))).
Proof.
  intros listed decoded Hl Hd Hall.
  destruct (IndexExists_loop_spec name _ _ Hall) as (b & Hrun & Hb).
  exists b. split; [|exact Hb].
  unfold IndexExists, ListIndexes. unfold call, bind, ret.
  fold listed. rewrite Hl. fold decoded. rewrite Hd. cbn [fst snd].
  by rewrite Hrun.
Qed.

(** ** Updates built and sent *)

(** Stamping writes to the update map and to its [$set] map only. *)
Lemma stamp_frame now update (st : store) :
  updatable st update ->
  exists st',
    stamped now update st st' /\
    (forall A (k : Go A),
       (s <- map_index update "$set" ;;
        (match s with
         | None => m <- new_M ;; map_assign update "$set" (Some (VM m))
         | Some _ => ret tt
         end) ;;;
        s <- map_index update "$set" ;;
        m <- assert_M s ;;
        map_assign m "updated_at" (Some now) ;;; k) st = k st') /\
    (forall p c,
       st !! p = Some c -> Some p <> update ->
       (forall top, read_M st update = Some top ->
          top !! "$set" <> Some (Some (VM (Some p)))) ->
       st' !! p = Some c).
Proof.
  intros Hu. destruct (stamp_updatable now update st Hu) as (st' & Hst & Hrun).
  exists st'. split; [done|]. split; [done|].
  destruct Hu as (l & top & -> & Hl & [Hs|(l2 & F & Hs & H2)]).
  - set (n := fresh (dom st)).
    assert (Hn : st !! n = None) by apply new_M_fresh.
    assert (Hne : l <> n) by congruence.
    assert (Hrun' : forall A (k : Go A),
      (s <- map_index (Some l) "$set" ;;
       (match s with
        | None => m <- new_M ;; map_assign (Some l) "$set" (Some (VM m))
        | Some _ => ret tt
        end) ;;;
       s <- map_index (Some l) "$set" ;;
       m <- assert_M s ;;
       map_assign m "updated_at" (Some now) ;;; k) st
      = k (<[n := CM {[ "updated_at" := Some now ]}]>
             (<[l := CM (<["$set" := Some (VM (Some n))]> top)]> (<[n := CM ∅]> st)))).
    { intros A k.
      erewrite bind_Ok; last first.
      { unfold map_index. rewrite Hl, Hs. reflexivity. }
      erewrite bind_Ok; last first.
      { unfold new_M. erewrite bind_Ok by reflexivity.
        apply map_assign_Ok. rewrite lookup_insert_ne by done. exact Hl. }
      erewrite (bind_Ok _ _ _ (Some (VM (Some n)))); last first.
      { unfold map_index. rewrite lookup_insert_eq, lookup_insert_eq. reflexivity. }
      cbn [assert_M]. rewrite bind_ret.
      erewrite bind_Ok; last first.
      { apply map_assign_Ok. rewrite lookup_insert_ne by done. apply lookup_insert_eq. }
      by rewrite insert_empty. }
    pose proof (Hrun unit (ret tt)) as E1. rewrite (Hrun' unit (ret tt)) in E1.
    unfold ret in E1. injection E1 as E1. rewrite <- E1.
    intros p c Hp Hpl _.
    rewrite lookup_insert_ne by congruence.
    rewrite lookup_insert_ne by congruence.
    rewrite lookup_insert_ne by congruence. done.
  - assert (Hrun' : forall A (k : Go A),
      (s <- map_index (Some l) "$set" ;;
       (match s with
        | None => m <- new_M ;; map_assign (Some l) "$set" (Some (VM m))
        | Some _ => ret tt
        end) ;;;
       s <- map_index (Some l) "$set" ;;
       m <- assert_M s ;;
       map_assign m "updated_at" (Some now) ;;; k) st
      = k (<[l2 := CM (<["updated_at" := Some now]> F)]> st)).
    { intros A k.
      erewrite (bind_Ok _ _ _ (Some (VM (Some l2)))); last first.
      { unfold map_index. by rewrite Hl, Hs. }
      rewrite bind_ret.
      erewrite (bind_Ok _ _ _ (Some (VM (Some l2)))); last first.
      { unfold map_index. by rewrite Hl, Hs. }
      cbn [assert_M]. rewrite bind_ret.
      erewrite bind_Ok; last first.
      { by apply map_assign_Ok. }
      done. }
    pose proof (Hrun unit (ret tt)) as E1. rewrite (Hrun' unit (ret tt)) in E1.
    unfold ret in E1. injection E1 as E1. rewrite <- E1.
    intros p c Hp Hpl Hset.
    rewrite lookup_insert_ne; [done|]. intros <-.
    apply (Hset top); [unfold read_M; by rewrite Hl|].
    by apply mjoin_Some_lookup.
Qed.

Lemma updatable_weaken (st st' : store) update :
  st ⊆ st' -> updatable st update -> updatable st' update.
Proof.
  intros Hsub (l & top & -> & Hl & Hs).
  exists l, top. split; [done|]. split; [by eapply lookup_weaken|].
  destruct Hs as [Hs|(l2 & F & Hs & H2)]; [by left|].
  right. exists l2, F. split; [done|]. by eapply lookup_weaken.
Qed.

Lemma set_doc_weaken (st st' : store) update F :
  st ⊆ st' -> set_doc st update = Some F -> set_doc st' update = Some F.
Proof.
  intros Hsub. unfold set_doc, read_M.
  destruct update as [l|]; [|done].
  destruct (st !! l) as [[?|top]|] eqn:El; try done.
  rewrite (lookup_weaken _ _ _ _ El Hsub).
  destruct (top !! "$set") as [[[]|]|]; try done.
  destruct ref as [l2|]; [|done].
  destruct (st !! l2) as [[?|?]|] eqn:E2; try done.
  by rewrite (lookup_weaken _ _ _ _ E2 Hsub).
Qed.

Lemma set_doc_updatable_weaken (st st' : store) update :
  st ⊆ st' -> updatable st update -> set_doc st' update = set_doc st update.
Proof.
  intros Hsub (l & top & -> & Hl & Hs). unfold set_doc, read_M.
  rewrite Hl, (lookup_weaken _ _ _ _ Hl Hsub).
  destruct Hs as [Hs|(l2 & F & Hs & H2)].
  - destruct (top !! "$set") as [[x|]|]; [|done|done]. cbn in Hs. discriminate Hs.
  - apply mjoin_Some_lookup in Hs.
    by rewrite Hs, H2, (lookup_weaken _ _ _ _ H2 Hsub).
Qed.

(** X12. [UpdateByID] hands the driver a new filter that holds the id under
    [_id] and nothing else, together with the caller's update stamped as by
    [UpdateOne]: the time under [updated_at], the other entries of [$set]
    as before. *)
Theorem UpdateByID_filter_and_stamp (r : Repository) now (id : ObjectID) update
    (st : store) :
  updatable st update ->
  exists f st',
    UpdateByID r now id update st
    = Ok (wrap "failed to update document"
            (driver_UpdateOne (collection r) (Some f) update st')) st' /\
    st !! f = None /\
    read_M st' (Some f) = Some {[ "_id" := Some (ObjectID_val id) ]} /\
    set_entry st' update "updated_at" = Some (Some now) /\
    (forall k, k <> "updated_at" -> set_entry st' update k = set_entry st update k).
Proof.
  intros Hu. set (f := fresh (dom st)).
  assert (Hf : st !! f = None) by apply new_M_fresh.
  set (st1 := <[f := CM {[ "_id" := Some (ObjectID_val id) ]}]> st).
  assert (Hsub : st ⊆ st1) by (by apply insert_subseteq).
  assert (Hf1 : st1 !! f = Some (CM {[ "_id" := Some (ObjectID_val id) ]}))
    by apply lookup_insert_eq.
  pose proof (updatable_weaken _ _ _ Hsub Hu) as Hu1.
  destruct (stamp_frame now update st1 Hu1) as (st' & Hst & Hrun & Hframe).
  destruct Hst as (Hua & Hkeep & _ & _).
  assert (Hupd : Some f <> update).
  { destruct Hu as (l & top & -> & Hl & _). congruence. }
  assert (Hentry : forall k, set_entry st1 update k = set_entry st update k).
  { intros k. unfold set_entry. by rewrite (set_doc_updatable_weaken _ _ _ Hsub Hu). }
  exists f, st'. split.
  { unfold UpdateByID, new_M. unfold bind at 1. fold f.
    erewrite bind_Ok; last first.
    { apply map_assign_Ok. apply lookup_insert_eq. }
    rewrite insert_insert_eq, insert_empty. fold st1.
    unfold UpdateOne. by rewrite Hrun. }
  split; [done|]. split.
  { unfold read_M. rewrite (Hframe f _ Hf1 Hupd); [done|].
    intros top Hr Hset.
    destruct Hu as (l & top0 & -> & Hl & Hs).
    unfold read_M in Hr. rewrite (lookup_weaken _ _ _ _ Hl Hsub) in Hr.
    injection Hr as <-. rewrite Hset in Hs. cbn in Hs.
    destruct Hs as [Hs|(l2 & F & [= <-] & H2)]; [done|]. congruence. }
  split; [done|]. intros k Hk. by rewrite Hkeep, Hentry.
Qed.

Lemma built_updatable (st : store) fs :
  updatable (built st fs) (Some (fresh (dom st))) /\
  (forall p c top,
     st !! p = Some c ->
     read_M (built st fs) (Some (fresh (dom st))) = Some top ->
     top !! "$set" <> Some (Some (VM (Some p)))).
Proof.
  destruct (built_lookups st fs) as [H1 H2].
  split.
  - eexists _, _. split; [done|]. split; [exact H1|].
    case_decide as E; [by left|].
    right. eexists _, _. split; [by rewrite lookup_singleton_eq|]. by apply H2.
  - intros p c top Hp Hr. unfold read_M in Hr. rewrite H1 in Hr.
    injection Hr as <-. case_decide as E; [by rewrite lookup_empty|].
    rewrite lookup_singleton_eq. intros [= <-].
    pose proof (new_M_fresh (<[fresh (dom st) := CM ∅]> st)) as Hf.
    apply lookup_insert_None in Hf as [Hf _]. congruence.
Qed.

Lemma build_then_stamp now (st : store) data :
  valid_input st data ->
  exists u st1 st2,
    BuildUpdateSet data st = Ok u st1 /\
    (forall A (k : Go A),
       (s <- map_index u "$set" ;;
        (match s with
         | None => m <- new_M ;; map_assign u "$set" (Some (VM m))
         | Some _ => ret tt
         end) ;;;
        s <- map_index u "$set" ;;
        m <- assert_M s ;;
        map_assign m "updated_at" (Some now) ;;; k) st1 = k st2) /\
    set_doc st2 u
    = Some (<["updated_at" := Some now]> (set_fields (input_fields st data))) /\
    (forall l c, st !! l = Some c -> st2 !! l = Some c).
Proof.
  intros Hv.
  assert (Hshape : exists st1,
    BuildUpdateSet data st = Ok (Some (fresh (dom st))) st1 /\ st ⊆ st1 /\
    updatable st1 (Some (fresh (dom st))) /\
    (forall k, set_entry st1 (Some (fresh (dom st))) k
               = set_fields (input_fields st data) !! k) /\
    (forall p c top, st !! p = Some c ->
       read_M st1 (Some (fresh (dom st))) = Some top ->
       top !! "$set" <> Some (Some (VM (Some p))))).
  { destruct (classic_struct st data) as [[fs Hs]|Hns].
    - exists (built st fs). rewrite (struct_input_fields _ _ _ Hs).
      split; [by apply BuildUpdateSet_struct|].
      split; [apply built_subseteq|].
      destruct (built_updatable st fs) as [Hu Hfr].
      split; [done|]. split; [|done].
      intros k. apply set_entry_fields. by apply set_doc_built.
    - exists (<[fresh (dom st) := CM ∅]> st). rewrite (not_struct_fields _ _ Hns).
      split; [by apply BuildUpdateSet_other|].
      split; [apply insert_subseteq, new_M_fresh|].
      split.
      { eexists _, ∅. split; [done|]. split; [apply lookup_insert_eq|by left]. }
      split.
      { intros k. unfold set_entry, set_doc, read_M. by rewrite lookup_insert_eq. }
      intros p c top _ Hr. unfold read_M in Hr. rewrite lookup_insert_eq in Hr.
      injection Hr as <-. by rewrite lookup_empty. }
  destruct Hshape as (st1 & Hrun & Hsub & Hu & Hent & Hfresh).
  destruct (stamp_frame now _ st1 Hu) as (st2 & Hst & Hrun2 & Hframe).
  destruct Hst as (Hua & Hkeep & _ & _).
  exists (Some (fresh (dom st))), st1, st2.
  split; [done|]. split; [done|]. split.
  - unfold set_entry in Hua, Hkeep.
    destruct (set_doc st2 (Some (fresh (dom st)))) as [F2|] eqn:E2; [|done].
    f_equal. apply map_eq. intros k.
    destruct (decide (k = "updated_at")) as [->|Hk].
    + by rewrite lookup_insert_eq.
    + rewrite lookup_insert_ne by done. rewrite (Hkeep k Hk). apply Hent.
  - intros l c Hl. apply Hframe.
    + by eapply lookup_weaken.
    + intros [= ->]. by rewrite new_M_fresh in Hl.
    + intros top Hr. by eapply Hfresh.
Qed.

(** X13. Every update [BuildUpdateSet] returns is accepted by [UpdateOne]
    and [UpdateMany] without a panic: the driver gets the [$set] document
    of the fields with [updated_at] set to the time of the call, which
    replaces an [updated_at] of the struct's own, and nothing that was in
    the store before the two calls, the input among it, is changed. *)
Theorem BuildUpdateSet_then_Update (r : Repository) now filter (st : store) data :
  valid_input st data ->
  exists u st1 st2,
    BuildUpdateSet data st = Ok u st1 /\
    UpdateOne r now filter u st1
    = Ok (wrap "failed to update document"
            (driver_UpdateOne (collection r) filter u st2)) st2 /\
    UpdateMany r now filter u st1
    = Ok (wrap "failed to update documents"
            (driver_UpdateMany (collection r) filter u st2)) st2 /\
    set_doc st2 u
    = Some (<["updated_at" := Some now]> (set_fields (input_fields st data))) /\
    (forall l c, st !! l = Some c -> st2 !! l = Some c).
Proof.
  intros Hv.
  destruct (build_then_stamp now st data Hv) as (u & st1 & st2 & Hb & Hrun & Hdoc & Hfr).
  exists u, st1, st2. split; [done|].
  split; [unfold UpdateOne; by rewrite Hrun|].
  split; [unfold UpdateMany; by rewrite Hrun|]. done.
Qed.

Lemma included_identity f x : external_name f = "_id" -> included (f, x) = false.
Proof.
  intros H. unfold included. cbn [fst snd]. rewrite H. by rewrite andb_false_r.
Qed.

(** X14. A partial update built from a [BaseDocument], passed directly or
    behind one pointer, never has the id and always has both times, zero or
    not: [$set] is [created_at] and [updated_at]; sent through [UpdateOne]
    it rewrites [created_at] with the document's value and [updated_at]
    with the time of the call. *)
Theorem BuildUpdateSet_BaseDocument (r : Repository) now filter (st : store) data
    (d : BaseDocument) :
  struct_input st data (BaseDocument_fields d) ->
  exists u st1 st2,
    BuildUpdateSet data st = Ok u st1 /\
    set_doc st1 u
    = Some (<["created_at" := Some (Time_val (CreatedAt d))]>
              {[ "updated_at" := Some (Time_val (UpdatedAt d)) ]}) /\
    UpdateOne r now filter u st1
    = Ok (wrap "failed to update document"
            (driver_UpdateOne (collection r) filter u st2)) st2 /\
    set_doc st2 u
    = Some (<["created_at" := Some (Time_val (CreatedAt d))]>
              {[ "updated_at" := Some now ]}).
Proof.
  intros Hs. pose proof (struct_valid _ _ _ Hs) as Hv.
  assert (HF : set_fields (BaseDocument_fields d)
               = <["created_at" := Some (Time_val (CreatedAt d))]>
                   {[ "updated_at" := Some (Time_val (UpdatedAt d)) ]}).
  { unfold BaseDocument_fields.
    etrans.
    { apply (set_fields_skip []
               (exported "ID" [("bson", "_id,omitempty"); ("json", "id,omitempty")],
                ObjectID_val (ID d))).
      apply included_identity. reflexivity. }
    vm_compute. reflexivity. }
  destruct (build_then_stamp now st data Hv) as (u & st1 & st2 & Hb & Hrun & Hdoc & _).
  rewrite (struct_input_fields _ _ _ Hs), HF in Hdoc.
  destruct (BuildUpdateSet_spec st data Hv) as (st1' & Hb' & _ & Hread).
  rewrite Hb in Hb'. injection Hb' as -> <-.
  destruct (Hread st1 (reflexivity _)) as [_ Hd1].
  rewrite (struct_input_fields _ _ _ Hs), HF in Hd1.
  exists (Some (fresh (dom st))), st1, st2. split; [done|].
  split.
  { rewrite Hd1. rewrite decide_False; [done|].
    intros E. apply (f_equal (fun m : gmap string any => m !! "created_at")) in E.
    rewrite lookup_insert_eq, lookup_empty in E. done. }
  split; [unfold UpdateOne; by rewrite Hrun|].
  rewrite Hdoc. by f_equal.
Qed.

(** ** Field order and repeated stamping *)

Lemma contributors_sublist k (fs : list (StructField * value)) :
  filter (contributes k) fs `sublist_of` filter (fun fx => included fx = true) fs.
Proof.
  induction fs as [|fx fs IH]; [done|]. rewrite !filter_cons.
  destruct (decide (contributes k fx)) as [[Hi _]|Hn].
  - rewrite decide_True by done. by apply sublist_skip.
  - case_decide; [by apply sublist_cons|done].
Qed.

Lemma contributors_at_most_one k (fs : list (StructField * value)) :
  NoDup ((fun fx : StructField * value => external_name fx.1)
           <$> filter (fun fx => included fx = true) fs) ->
  (List.length (filter (contributes k) fs) <= 1)%nat.
Proof.
  intros Hnd.
  assert (Hnd' : NoDup ((fun fx : StructField * value => external_name fx.1)
                          <$> filter (contributes k) fs)).
  { eapply sublist_NoDup; [exact Hnd|]. apply fmap_sublist, contributors_sublist. }
  assert (Hall : Forall (contributes k) (filter (contributes k) fs)).
  { apply Forall_forall. intros fx Hfx. by apply list_elem_of_filter in Hfx as [? _]. }
  destruct (filter (contributes k) fs) as [|a [|b rest]]; cbn; try lia.
  exfalso. rewrite !fmap_cons in Hnd'.
  apply NoDup_cons in Hnd' as [Ha _]. apply Ha.
  apply Forall_cons in Hall as [[_ Hka] Hall].
  apply Forall_cons in Hall as [[_ Hkb] _].
  rewrite Hka, <- Hkb. left.
Qed.

Lemma set_fields_permutation (fs fs' : list (StructField * value)) :
  fs ≡ₚ fs' ->
  NoDup ((fun fx : StructField * value => external_name fx.1)
           <$> filter (fun fx => included fx = true) fs) ->
  set_fields fs = set_fields fs'.
Proof.
  intros Hp Hnd. apply map_eq. intros k. rewrite !set_fields_lookup. f_equal.
  pose proof (contributors_at_most_one k fs Hnd) as Hlen.
  assert (Hpf : filter (contributes k) fs ≡ₚ filter (contributes k) fs')
    by (by rewrite Hp).
  destruct (filter (contributes k) fs) as [|a [|b rest]]; cbn in Hlen; try lia.
  - apply Permutation_nil_l in Hpf. by rewrite Hpf.
  - apply Permutation_singleton_l in Hpf. by rewrite Hpf.
Qed.

(** X15. When no two assigned fields of a struct resolve to the same name,
    [BuildUpdateSet] does not depend on the order in which the struct
    declares its fields: every reordering gives the same result and the same
    store. *)
Theorem BuildUpdateSet_field_order (st : store) (fs fs' : list (StructField * value)) :
  fs ≡ₚ fs' ->
  NoDup ((fun fx : StructField * value => external_name fx.1)
           <$> filter (fun fx => included fx = true) fs) ->
  BuildUpdateSet (Some (VStruct fs)) st = BuildUpdateSet (Some (VStruct fs')) st /\
  exists r st', BuildUpdateSet (Some (VStruct fs)) st = Ok r st'.
Proof.
  intros Hp Hnd.
  rewrite (BuildUpdateSet_struct st _ fs) by (by left).
  rewrite (BuildUpdateSet_struct st _ fs') by (by left).
  split; [|by eauto]. unfold built.
  by rewrite (set_fields_permutation fs fs' Hp Hnd).
Qed.

Lemma stamped_updatable now update (st st' : store) :
  stamped now update st st' -> updatable st' update.
Proof.
  intros (Hua & _). unfold set_entry, set_doc, read_M in Hua.
  destruct update as [l|]; [|done].
  destruct (st' !! l) as [[?|top]|] eqn:El; try done.
  destruct (top !! "$set") as [[[]|]|] eqn:Es; try done.
  destruct ref as [l2|]; [|done].
  destruct (st' !! l2) as [[?|F]|] eqn:E2; try done.
  exists l, top. split; [done|]. split; [done|]. right.
  exists l2, F. split; [by rewrite Es|done].
Qed.

(** X16. An update that was stamped can be sent again: a second
    [UpdateOne] on the same map does not panic, puts the new time under
    [updated_at] and keeps the other entries of [$set] as they were before
    the first call. *)
Theorem UpdateOne_twice (r : Repository) now1 now2 filter update (st : store) :
  updatable st update ->
  exists st1 st2,
    UpdateOne r now1 filter update st
    = Ok (wrap "failed to update document"
            (driver_UpdateOne (collection r) filter update st1)) st1 /\
    UpdateOne r now2 filter update st1
    = Ok (wrap "failed to update document"
            (driver_UpdateOne (collection r) filter update st2)) st2 /\
    set_entry st2 update "updated_at" = Some (Some now2) /\
    (forall k, k <> "updated_at" -> set_entry st2 update k = set_entry st update k).
Proof.
  intros Hu.
  destruct (stamp_updatable now1 update st Hu) as (st1 & Hst1 & Hrun1).
  pose proof (stamped_updatable _ _ _ _ Hst1) as Hu1.
  destruct (stamp_updatable now2 update st1 Hu1) as (st2 & Hst2 & Hrun2).
  exists st1, st2.
  split; [unfold UpdateOne; by rewrite Hrun1|].
  split; [unfold UpdateOne; by rewrite Hrun2|].
  destruct Hst1 as (_ & Hk1 & _). destruct Hst2 as (Hua2 & Hk2 & _).
  split; [done|]. intros k Hk. by rewrite (Hk2 k Hk), (Hk1 k Hk).
Qed.

End Program.

(** ** The theorems at sample inputs *)

Lemma BuildUpdateSet_includes_witness :
  struct_input mixed_store (Some (VPtr (Some 5%positive))) mixed_fields /\
  exists r st',
    BuildUpdateSet ascii_names (Some (VPtr (Some 5%positive))) mixed_store = Ok r st' /\
    set_entry st' r "nick" = Some (Some (VString "al")).
Proof.
  assert (H : struct_input mixed_store (Some (VPtr (Some 5%positive))) mixed_fields).
  { right. exists 5%positive. split; reflexivity. }
  split; [exact H|].
  destruct (BuildUpdateSet_includes ascii_names _ _ _ H) as (r & st' & Hrun & _ & _ & Hk).
  exists r, st'. split; [exact Hrun|].
  rewrite Hk. vm_compute. reflexivity.
Defined.

(** C1 as it is worded fails on the code, whatever the Unicode tables: a
    tagged, non-empty identity field gets no entry, and of two fields of one
    name the earlier one's value is not the entry. *)
Lemma inclusion_needs_identity_rule :
  (forall U, ~ inclusion_by_tag_and_value U ∅ (Some (VStruct identity_only)) identity_only) /\
  (forall U, ~ inclusion_by_tag_and_value U ∅ (Some (VStruct same_name_twice)) same_name_twice).
Proof.
  split.
  - intros U (r & st' & Hrun & H).
    destruct (BuildUpdateSet_entry U ∅ (Some (VStruct identity_only))) as (st2 & Hrun2 & He);
      [by intros p [=]|].
    rewrite Hrun in Hrun2. injection Hrun2 as -> ->.
    assert (Hin : (tagged "ID" "_id", VInt 7) ∈ identity_only) by left.
    destruct (H _ _ Hin eq_refl) as [Hto _].
    specialize (Hto (conj eq_refl eq_refl)).
    rewrite He in Hto. cbn [input_fields] in Hto.
    change (external_name U (tagged "ID" "_id")) with "_id" in Hto.
    rewrite set_fields_no_id in Hto. discriminate Hto.
  - intros U (r & st' & Hrun & H).
    destruct (BuildUpdateSet_entry U ∅ (Some (VStruct same_name_twice))) as (st2 & Hrun2 & He);
      [by intros p [=]|].
    rewrite Hrun in Hrun2. injection Hrun2 as -> ->.
    assert (Hin : (tagged "A" "x", VInt 1) ∈ same_name_twice) by left.
    destruct (H _ _ Hin eq_refl) as [Hto _].
    specialize (Hto (conj eq_refl eq_refl)).
    rewrite He in Hto. vm_compute in Hto. discriminate Hto.
Qed.

Lemma BuildUpdateSet_never_sets_id_witness :
  valid_input mixed_store (Some (VPtr (Some 5%positive))) /\
  exists r st',
    BuildUpdateSet ascii_names (Some (VPtr (Some 5%positive))) mixed_store = Ok r st' /\
    set_entry st' r "_id" = None.
Proof.
  split; [exact mixed_valid|].
  destruct (BuildUpdateSet_never_sets_id ascii_names _ _ mixed_valid) as (r & st' & Hrun & H & _).
  exists r, st'. split; [exact Hrun|exact H].
Defined.

Lemma BuildUpdateSet_at_most_set_key_witness :
  valid_input mixed_store (Some (VPtr (Some 5%positive))) /\
  exists r st' top,
    BuildUpdateSet ascii_names (Some (VPtr (Some 5%positive))) mixed_store = Ok r st' /\
    read_M st' r = Some top /\ dom top ⊆ {[ "$set" ]} /\
    view st' r = Some {[ "$set" := Doc {[ "nick" := Some (VString "al") ]} ]}.
Proof.
  split; [exact mixed_valid|].
  destruct (BuildUpdateSet_at_most_set_key ascii_names _ _ mixed_valid)
    as (r & st' & top & Hrun & Hr & Hd & Hsome & _).
  exists r, st', top. split; [exact Hrun|]. split; [exact Hr|]. split; [exact Hd|].
  destruct Hsome as (F & Hview & _ & _ & HF).
  { exists (tagged "Nick" ",omitempty", VString "al").
    split; [right; left|reflexivity]. }
  rewrite Hview, HF. vm_compute. reflexivity.
Defined.

Lemma BuildUpdateSet_total_witness :
  valid_input ∅ (Some (VPtr None)) /\
  exists r st',
    BuildUpdateSet ascii_names (Some (VPtr None)) ∅ = Ok r st' /\ read_M st' r = Some ∅.
Proof.
  assert (H : valid_input ∅ (Some (VPtr None))) by (intros p Hp; discriminate Hp).
  split; [exact H|].
  destruct (BuildUpdateSet_total ascii_names ∅ (Some (VPtr None)) H) as (r & st' & Hrun & _ & He).
  exists r, st'. split; [exact Hrun|]. apply He. right. reflexivity.
Defined.

Lemma BuildUpdateSet_non_struct_empty_witness :
  valid_input ∅ (Some (VInt 42)) /\
  (forall fs, ~ struct_input ∅ (Some (VInt 42)) fs) /\
  exists r st',
    BuildUpdateSet ascii_names (Some (VInt 42)) ∅ = Ok r st' /\ read_M st' r = Some ∅.
Proof.
  assert (Hv : valid_input ∅ (Some (VInt 42))) by (intros p Hp; discriminate Hp).
  assert (Hns : forall fs, ~ struct_input ∅ (Some (VInt 42)) fs).
  { intros fs [Hd|(p & Hd & _)]; discriminate Hd. }
  split; [exact Hv|]. split; [exact Hns|].
  destruct (BuildUpdateSet_non_struct_empty ascii_names ∅ (Some (VInt 42)) Hv Hns)
    as (r & st' & Hrun & Hr & _).
  exists r, st'. split; [exact Hrun|exact Hr].
Defined.

Lemma BuildUpdateSet_name_resolution_witness :
  struct_input mixed_store (Some (VPtr (Some 5%positive))) mixed_fields /\
  exists r st',
    BuildUpdateSet ascii_names (Some (VPtr (Some 5%positive))) mixed_store = Ok r st' /\
    is_Some (set_entry st' r "nick") /\
    exists st2,
      BuildUpdateSet ascii_names
        (Some (VStruct (take 2 mixed_fields ++ drop 3 mixed_fields))) mixed_store
      = Ok r st2 /\
      view st2 r = view st' r.
Proof.
  assert (H : struct_input mixed_store (Some (VPtr (Some 5%positive))) mixed_fields).
  { right. exists 5%positive. split; reflexivity. }
  split; [exact H|].
  destruct (BuildUpdateSet_name_resolution ascii_names _ _ _ H) as (r & st' & Hrun & Hname & Hskip).
  exists r, st'. split; [exact Hrun|]. split.
  - exact (proj1 (proj2 (Hname 1%nat (tagged "Nick" ",omitempty") (VString "al")
                            eq_refl eq_refl eq_refl))).
  - destruct (Hskip (take 2 mixed_fields) (tagged "Secret" "-") (VString "s")
                (drop 3 mixed_fields) eq_refl eq_refl) as (st2 & Hrun2 & Hview & _).
    exists st2. split; [exact Hrun2|exact Hview].
Defined.

Lemma BuildUpdateSet_pure_witness :
  valid_input mixed_store (Some (VPtr (Some 5%positive))) /\
  exists r1 st1 r2 st2,
    BuildUpdateSet ascii_names (Some (VPtr (Some 5%positive))) mixed_store = Ok r1 st1 /\
    BuildUpdateSet ascii_names (Some (VPtr (Some 5%positive))) st1 = Ok r2 st2 /\
    view st1 r1 = view st2 r2 /\
    st2 !! 5%positive = Some (CVal (VStruct mixed_fields)).
Proof.
  split; [exact mixed_valid|].
  destruct (BuildUpdateSet_pure ascii_names _ _ mixed_valid)
    as (r1 & st1 & r2 & st2 & doc & Hrun1 & Hrun2 & Hv1 & Hv2 & _ & Hk1 & Hk2).
  exists r1, st1, r2, st2. split; [exact Hrun1|]. split; [exact Hrun2|].
  split; [exact (eq_trans Hv1 (eq_sym Hv2))|].
  apply Hk2, Hk1. reflexivity.
Defined.


Lemma Update_stamps_updated_at_witness :
  BuildUpdateSet ascii_names (Some (VInt 42)) ∅ = Ok (Some 1%positive) empty_update /\
  updatable empty_update (Some 1%positive) /\
  exists st',
    UpdateOne stub_Repository a_time None (Some 1%positive) empty_update
    = Ok (Some (VInt 0), None) st' /\
    view st' (Some 1%positive)
    = Some {[ "$set" := Doc {[ "updated_at" := Some a_time ]} ]}.
Proof.
  assert (H : updatable empty_update (Some 1%positive)).
  { exists 1%positive, ∅. split; [reflexivity|]. split; [reflexivity|].
    left. reflexivity. }
  split; [vm_compute; reflexivity|]. split; [exact H|].
  destruct (Update_stamps_updated_at stub_Repository a_time None _ _ H)
    as (st' & Hone & _ & _ & _ & _ & Hview).
  exists st'. split; [exact Hone|]. apply Hview. reflexivity.
Defined.

(** C10 as it is worded fails on the code: with a [$set] that is not a
    [bson.M], and with a nil update map, both methods panic before the
    driver is called. *)
Lemma Update_panics_on_other_set :
  UpdateOne stub_Repository a_time None (Some 1%positive) set_as_D
  = Panic "interface conversion: interface {} is not primitive.M" /\
  UpdateMany stub_Repository a_time None (Some 1%positive) set_as_D
  = Panic "interface conversion: interface {} is not primitive.M" /\
  UpdateOne stub_Repository a_time None None ∅
  = Panic "assignment to entry in nil map" /\
  ~ (exists res st',
       UpdateOne stub_Repository a_time None (Some 1%positive) set_as_D = Ok res st').
Proof.
  assert (H : UpdateOne stub_Repository a_time None (Some 1%positive) set_as_D
              = Panic "interface conversion: interface {} is not primitive.M")
    by (vm_compute; reflexivity).
  split; [exact H|]. split; [vm_compute; reflexivity|].
  split; [vm_compute; reflexivity|].
  intros (res & st' & Hok). rewrite H in Hok. discriminate Hok.
Qed.

Lemma BuildFilter_keeps_set_entries_witness :
  let st : store := {[ 7%positive := CM {[ "age" := Some (VInt 30); "name" := None ]} ]} in
  visits_all (@map_to_list string any _ _) /\
  is_Some (read_M st (Some 7%positive)) /\
  exists f st' F,
    BuildFilter map_to_list (Some 7%positive) st = Ok (Some f) st' /\
    read_M st' (Some f) = Some F /\
    F !! "age" = Some (Some (VInt 30)) /\ F !! "name" = None.
Proof.
  intros st.
  assert (Hr : is_Some (read_M st (Some 7%positive))) by (eexists; reflexivity).
  split; [exact visits_map_to_list|]. split; [exact Hr|].
  destruct (BuildFilter_keeps_set_entries map_to_list (Some 7%positive) st
              visits_map_to_list (or_intror Hr))
    as (f & st' & Hrun & _ & _ & F & HF & _ & Hent).
  exists f, st', F. split; [exact Hrun|]. split; [exact HF|].
  specialize (Hent _ eq_refl). split.
  - apply Hent. split; [reflexivity|discriminate].
  - apply eq_None_not_Some. intros [v Hv]. apply Hent in Hv as [Hv Hne].
    vm_compute in Hv. injection Hv as <-. by apply Hne.
Defined.

Lemma MergeBsonM_last_wins_witness :
  let st : store :=
    {[ 1%positive := CM {[ "x" := Some (VInt 1); "y" := Some (VInt 2) ]};
       2%positive := CM {[ "y" := Some (VInt 3) ]} ]} in
  let docs := [Some 1%positive; None; Some 2%positive] in
  (forall i : nat, visits_all ((fun _ => map_to_list) i : gmap string any -> _)) /\
  Forall (fun d => d = None \/ is_Some (read_M st d)) docs /\
  exists r st' R,
    MergeBsonM (fun _ => map_to_list) docs st = Ok (Some r) st' /\
    read_M st' (Some r) = Some R /\
    R !! "x" = Some (Some (VInt 1)) /\ R !! "y" = Some (Some (VInt 3)).
Proof.
  intros st docs.
  assert (Hv : forall i : nat, visits_all ((fun _ => map_to_list) i : gmap string any -> _))
    by (intros i; exact visits_map_to_list).
  assert (Hd : Forall (fun d => d = None \/ is_Some (read_M st d)) docs).
  { apply Forall_cons; split; [right; eexists; reflexivity|].
    apply Forall_cons; split; [left; reflexivity|].
    apply Forall_cons; split; [right; eexists; reflexivity|]. apply Forall_nil_2. }
  split; [exact Hv|]. split; [exact Hd|].
  destruct (MergeBsonM_last_wins (fun _ => map_to_list) docs st Hv Hd)
    as (r & st' & R & Hrun & _ & _ & HR & Hk & _).
  exists r, st', R. split; [exact Hrun|]. split; [exact HR|].
  split; rewrite Hk; vm_compute; reflexivity.
Defined.

Lemma BuildSort_entries_witness :
  let m : gmap string Z := {[ "created_at" := -1 ]} in
  visits_all (@map_to_list string Z _ _) /\
  BuildSort map_to_list (Some m) = Some [("created_at", Some (VInt (-1)))].
Proof.
  intros m. split; [exact visits_map_to_list|].
  pose proof (BuildSort_entries map_to_list (Some m) visits_map_to_list) as H.
  cbn beta iota in H. rewrite decide_False in H by (by vm_compute).
  destruct H as (es & -> & -> & _). vm_compute. reflexivity.
Defined.

Lemma BuildSort_order_open_witness :
  let m : gmap string Z := {[ "status" := 1; "created_at" := -1 ]} in
  (2 <= size m)%nat /\
  exists visit1 visit2,
    visits_all visit1 /\ visits_all visit2 /\
    BuildSort visit1 (Some m) <> BuildSort visit2 (Some m).
Proof.
  intros m.
  assert (H : (2 <= size m)%nat) by (vm_compute; lia).
  split; [exact H|exact (BuildSort_order_open m H)].
Defined.

Lemma CreateCompoundIndex_keys_order_witness :
  let fields : gmap string Z := {[ "category_id" := 1; "status" := 1 ]} in
  let createOne : bsonD -> any -> store -> string * option string :=
    fun _ _ _ => ("idx", None) in
  visits_all (@map_to_list string Z _ _) /\
  exists keys,
    CreateCompoundIndex map_to_list createOne (Some fields) None ∅
    = CreateIndex createOne (Some keys) None ∅ /\
    List.length keys = 2%nat.
Proof.
  intros fields createOne. split; [exact visits_map_to_list|].
  destruct (CreateCompoundIndex_keys_order map_to_list createOne fields None ∅
              visits_map_to_list) as (keys & Hrun & Hp & _).
  exists keys. split; [exact Hrun|]. rewrite Hp. vm_compute. reflexivity.
Defined.

Lemma ObjectIDs_round_trip_witness :
  let ids : list ObjectID :=
    [ [80; 127; 31; 119; 188; 248; 108; 215; 153; 67; 144; 17];
      [0; 0; 0; 0; 0; 0; 0; 0; 0; 0; 0; 255] ] in
  Forall (fun id => ObjectIDFromHex hex_primitive (Hex hex_primitive id) = inl id) ids /\
  StringsFromObjectIDs hex_primitive ids
  = Some ["507f1f77bcf86cd799439011"; "0000000000000000000000ff"] /\
  ObjectIDsFromStrings hex_primitive
    ["507f1f77bcf86cd799439011"; "0000000000000000000000ff"]
  = (Some ids, None).
Proof.
  intros ids.
  assert (H : Forall (fun id => ObjectIDFromHex hex_primitive (Hex hex_primitive id) = inl id) ids).
  { apply Forall_cons; split; [vm_compute; reflexivity|].
    apply Forall_cons; split; [vm_compute; reflexivity|]. apply Forall_nil_2. }
  split; [exact H|]. split; [vm_compute; reflexivity|].
  exact (proj2 (proj2 (ObjectIDs_round_trip hex_primitive ids H))).
Defined.

Lemma FindWithPagination_pages_witness :
  exists pages,
    FindWithPagination stub_Queries None 3 10 None ∅
    = Ok (Some (mkPaginationResult 3 10 41 pages), None) ∅ /\
    pages = 5.
Proof.
  destruct (FindWithPagination_pages stub_Queries None 3 10 None ∅)
    as (pages & Hrun & Hlo & Hhi);
    try (int64_bounds; cbn; lia); try reflexivity.
  exists pages. split; [exact Hrun|]. cbn in Hlo, Hhi. lia.
Defined.


Lemma IndexExists_by_name_witness :
  IndexExists stub_IndexView "idx_email" index_store = Ok (true, None) index_store /\
  IndexExists stub_IndexView "3" index_store = Ok (false, None) index_store.
Proof.
  assert (Hall : Forall (fun ix => ix = None \/ is_Some (read_M index_store ix))
                   [Some 1%positive; Some 2%positive; None; Some 3%positive]).
  { apply Forall_cons; split; [right; eexists; reflexivity|].
    apply Forall_cons; split; [right; eexists; reflexivity|].
    apply Forall_cons; split; [left; reflexivity|].
    apply Forall_cons; split; [right; eexists; reflexivity|]. apply Forall_nil_2. }
  split.
  - destruct (IndexExists_by_name stub_IndexView "idx_email" index_store
                eq_refl eq_refl Hall) as (b & Hrun & Hb).
    rewrite Hrun. f_equal. f_equal. apply Hb.
    exists (Some 3%positive). eexists.
    split; [|split; [reflexivity|reflexivity]].
    right. right. right. left.
  - destruct (IndexExists_by_name stub_IndexView "3" index_store
                eq_refl eq_refl Hall) as (b & Hrun & Hb).
    rewrite Hrun. destruct b; [|reflexivity]. exfalso.
    destruct (proj1 Hb eq_refl) as (ix & mm & Hin & Hr & Hn).
    repeat (apply elem_of_cons in Hin as [->|Hin];
            [vm_compute in Hr; try discriminate Hr; injection Hr as <-;
             vm_compute in Hn; discriminate Hn|]).
    by apply not_elem_of_nil in Hin.
Defined.

Lemma UpdateByID_filter_and_stamp_witness :
  updatable empty_update (Some 1%positive) /\
  exists f st',
    UpdateByID stub_Repository a_time (replicate 12 7) (Some 1%positive) empty_update
    = Ok (Some (VInt 0), None) st' /\
    read_M st' (Some f) = Some {[ "_id" := Some (ObjectID_val (replicate 12 7)) ]} /\
    set_entry st' (Some 1%positive) "updated_at" = Some (Some a_time).
Proof.
  assert (H : updatable empty_update (Some 1%positive)).
  { exists 1%positive, ∅. split; [reflexivity|]. split; [reflexivity|].
    left. reflexivity. }
  split; [exact H|].
  destruct (UpdateByID_filter_and_stamp stub_Repository a_time (replicate 12 7) _ _ H)
    as (f & st' & Hrun & _ & Hf & Hua & _).
  exists f, st'. split; [exact Hrun|]. split; [exact Hf|exact Hua].
Defined.

Lemma BuildUpdateSet_then_Update_witness :
  valid_input mixed_store (Some (VPtr (Some 5%positive))) /\
  exists u st1 st2,
    BuildUpdateSet ascii_names (Some (VPtr (Some 5%positive))) mixed_store = Ok u st1 /\
    UpdateOne stub_Repository a_time None u st1 = Ok (Some (VInt 0), None) st2 /\
    set_doc st2 u
    = Some (<["updated_at" := Some a_time]> {[ "nick" := Some (VString "al") ]}) /\
    st2 !! 5%positive = Some (CVal (VStruct mixed_fields)).
Proof.
  split; [exact mixed_valid|].
  destruct (BuildUpdateSet_then_Update ascii_names stub_Repository a_time None _ _ mixed_valid)
    as (u & st1 & st2 & Hb & Hone & _ & Hdoc & Hfr).
  exists u, st1, st2. split; [exact Hb|]. split; [exact Hone|].
  split; [|apply Hfr; reflexivity].
  rewrite Hdoc. vm_compute. reflexivity.
Defined.

Lemma BuildUpdateSet_BaseDocument_witness :
  let d := mkBaseDocument (replicate 12 9) zero_Time zero_Time in
  struct_input ∅ (Some (BaseDocument_val d)) (BaseDocument_fields d) /\
  exists u st1,
    BuildUpdateSet ascii_names (Some (BaseDocument_val d)) ∅ = Ok u st1 /\
    set_doc st1 u
    = Some (<["created_at" := Some (Time_val zero_Time)]>
              {[ "updated_at" := Some (Time_val zero_Time) ]}).
Proof.
  intros d.
  assert (H : struct_input ∅ (Some (BaseDocument_val d)) (BaseDocument_fields d))
    by (left; reflexivity).
  split; [exact H|].
  destruct (BuildUpdateSet_BaseDocument ascii_names stub_Repository a_time None ∅ _ d H)
    as (u & st1 & st2 & Hb & Hd & _).
  exists u, st1. split; [exact Hb|exact Hd].
Defined.

Lemma BuildUpdateSet_field_order_witness :
  let a := (tagged "Name" "username", VString "alice") in
  let b := (tagged "Bio" "profile.bio,omitempty", VString "hello") in
  [a; b] ≡ₚ [b; a] /\
  BuildUpdateSet ascii_names (Some (VStruct [a; b])) ∅ = BuildUpdateSet ascii_names (Some (VStruct [b; a])) ∅.
Proof.
  intros a b.
  assert (Hp : [a; b] ≡ₚ [b; a]) by apply Permutation_swap.
  split; [exact Hp|].
  apply (BuildUpdateSet_field_order ascii_names ∅ [a; b] [b; a] Hp).
  vm_compute. apply NoDup_cons; split.
  - intros H. apply elem_of_cons in H as [H|H]; [discriminate H|].
    by apply not_elem_of_nil in H.
  - apply NoDup_singleton.
Defined.

Lemma UpdateOne_twice_witness :
  updatable empty_update (Some 1%positive) /\
  exists st1 st2,
    UpdateOne stub_Repository a_time None (Some 1%positive) empty_update
    = Ok (Some (VInt 0), None) st1 /\
    UpdateOne stub_Repository (VInt 9) None (Some 1%positive) st1
    = Ok (Some (VInt 0), None) st2 /\
    set_entry st2 (Some 1%positive) "updated_at" = Some (Some (VInt 9)).
Proof.
  assert (H : updatable empty_update (Some 1%positive)).
  { exists 1%positive, ∅. split; [reflexivity|]. split; [reflexivity|].
    left. reflexivity. }
  split; [exact H|].
  destruct (UpdateOne_twice stub_Repository a_time (VInt 9) None _ _ H)
    as (st1 & st2 & H1 & H2 & Hua & _).
  exists st1, st2. split; [exact H1|]. split; [exact H2|exact Hua].
Defined.
